(** * starlarkgroup: a rate-limited errgroup for Starlark

    Shallow embedding of package [starlarkgroup] (constructor [Make] /
    [NewGroup], builtins [group.go] and [group.wait]) together with the
    collaborators it drives: Starlark values and their [Freeze] method,
    [context.Context], [rate.Limiter], [errgroup.Group] and a buffered
    channel of closures.

    The goroutines started by [group.wait] are modelled by an interleaving
    machine: a state holds the program counter of the builtin, the pool of
    goroutines, the channel, the result slots and the errgroup; a schedule
    (list of choices) says which thread moves next. *)

From Stdlib Require Import ZArith Lia Ascii String.
From stdpp Require Import base tactics option list gmap strings pretty sorting.

Set Warnings "-register-all,-clear-no-such-hyp".

Open Scope string_scope.
Open Scope list_scope.
Open Scope Z_scope.

(* ===================================================================== *)
(** ** Errors *)

(** Go [error] values that can reach the caller of a builtin. *)
Inductive error : Type :=
  | Errorf (msg : string)        (* fmt.Errorf / errors.New *)
  | Canceled                     (* context.Canceled *)
  | DeadlineExceeded             (* context.DeadlineExceeded *)
  | EvalError (msg : string).    (* error returned by starlark.Call *)

Global Instance error_eq_dec : EqDecision error.
Proof. solve_decision. Defined.

(* ===================================================================== *)
(** ** Starlark values, the heap of lists, Freeze *)

Abbreviation loc := positive.

(** [starlark.Value]: lists are mutable and live in the heap, tuples are
    immutable sequences, callables are named. *)
Inductive Value : Type :=
  | VNone
  | VInt (z : Z)
  | VString (s : string)
  | VTuple (vs : list Value)
  | VList (l : loc)
  | VCallable (name : string).

(** [*starlark.List]: [elems] and the [frozen] flag. *)
Record ListObj : Type := mkList { lelems : list Value; lfrozen : bool }.

Abbreviation Heap := (gmap loc ListObj).

(** A builtin returns [(starlark.Value, error)]; [None] is Go's nil. *)
Definition Ret : Type := option Value * option error.

(** [v.Freeze()]. A list that is already frozen is not visited again; a
    list sets its flag and then freezes its elements; a tuple freezes its
    elements; scalars and callables have nothing to do. The recursion
    through the heap is bounded by [fuel]: each list entered was unfrozen
    and becomes frozen. *)
Fixpoint freeze (fuel : nat) (v : Value) (h : Heap) {struct fuel} : Heap :=
  let fix go (v : Value) (h : Heap) {struct v} : Heap :=
    match v with
    | VTuple vs =>
        (fix gos (vs : list Value) (h : Heap) {struct vs} : Heap :=
           match vs with
           | [] => h
           | v' :: vs' => gos vs' (go v' h)
           end) vs h
    | VList l =>
        match fuel with
        | O => h
        | S fuel' =>
            match h !! l with
            | Some o =>
                if lfrozen o then h
                else foldl (fun h' e => freeze fuel' e h')
                           (<[l := mkList (lelems o) true]> h) (lelems o)
            | None => h
            end
        end
    | _ => h
    end
  in go v h.

(** Enough fuel for any heap: one unit per list object, plus one. *)
Definition Freeze (v : Value) (h : Heap) : Heap := freeze (S (size h)) v h.

(** [Tuple.Freeze]: [for _, elem := range t { elem.Freeze() }]. The nil
    tuple is the empty list. *)
Definition Tuple_Freeze (t : list Value) (h : Heap) : Heap :=
  foldl (fun h' e => Freeze e h') h t.

(** [list.append(v)] of the interpreter: rejected on a frozen list. *)
Definition list_append (l : loc) (v : Value) (h : Heap) : Heap * option error :=
  match h !! l with
  | Some o =>
      if lfrozen o
      then (h, Some (EvalError "append: cannot append to frozen list"))
      else (<[l := mkList (lelems o ++ [v]) false]> h, None)
  | None => (h, Some (EvalError "append: no such list"))
  end.

(** [h'] has the lists of [h] and no others, with the same elements; a
    list frozen in [h] is frozen in [h']. *)
Definition keeps (h h' : Heap) : Prop :=
  (forall l o, h !! l = Some o ->
     exists o', h' !! l = Some o' /\ lelems o' = lelems o /\
                (lfrozen o = true -> lfrozen o' = true)) /\
  (forall l, h !! l = None -> h' !! l = None).

(** The lists a value refers to without going through the heap. *)
Inductive direct : Value -> loc -> Prop :=
  | direct_list l : direct (VList l) l
  | direct_tuple vs v l : v ∈ vs -> direct v l -> direct (VTuple vs) l.

(** The lists a value reaches, through tuples and through the elements
    of lists. *)
Inductive reaches (h : Heap) : Value -> loc -> Prop :=
  | reaches_direct v l : direct v l -> reaches h v l
  | reaches_elem v l o e l' :
      direct v l -> h !! l = Some o -> e ∈ lelems o -> reaches h e l' ->
      reaches h v l'.

Definition frozen_at (h : Heap) (l : loc) : Prop :=
  forall o, h !! l = Some o -> lfrozen o = true.

(** Deep-frozen: every list the value reaches is frozen. *)
Definition deep_frozen (h : Heap) (v : Value) : Prop :=
  forall l, reaches h v l -> frozen_at h l.

(** The interpreter's invariant: a frozen list holds frozen lists only
    (the flag is set by [Freeze] alone, which goes on to the elements). *)
Definition heap_closed (h : Heap) : Prop :=
  forall l o e l',
    h !! l = Some o -> lfrozen o = true -> e ∈ lelems o -> direct e l' ->
    frozen_at h l'.

(** The lists frozen between [h] and [h'] hold frozen lists only. *)
Definition newly_closed (h h' : Heap) : Prop :=
  forall l o o' e l',
    h !! l = Some o -> lfrozen o = false ->
    h' !! l = Some o' -> lfrozen o' = true ->
    e ∈ lelems o' -> direct e l' -> frozen_at h' l'.

(** What a traversal from [v] achieves between [h] and [h']. *)
Definition frozen_from (v : Value) (h h' : Heap) : Prop :=
  keeps h h' /\ (forall l, direct v l -> frozen_at h' l) /\ newly_closed h h'.

(** Number of lists not yet frozen. *)
Definition unfrozen (h : Heap) : nat :=
  size (filter (fun p : loc * ListObj => lfrozen p.2 = false) h).

(** The assertion [args[0].(starlark.Callable)]. *)
Definition is_callable (v : Value) : bool :=
  match v with VCallable _ => true | _ => false end.

(** What [%T] prints for a value. *)
Definition go_type (v : Value) : string :=
  match v with
  | VNone => "starlark.NoneType"
  | VInt _ => "starlark.Int"
  | VString _ => "starlark.String"
  | VTuple _ => "starlark.Tuple"
  | VList _ => "*starlark.List"
  | VCallable _ => "*starlark.Builtin"
  end.

(* ===================================================================== *)
(** ** context, rate and errgroup *)

(** A [context.Context] is observed through [Err()]: [None] while it is
    live, the reason once it is done. *)
Definition Context := option error.

Definition Background : Context := None.

(** [time.Duration]: nanoseconds. *)
Definition Duration := Z.

(** [rate.Limit]: [Inf], or one event per [interval] nanoseconds. *)
Inductive Limit : Type :=
  | Inf
  | PerInterval (interval : Duration).

Global Instance Limit_eq_dec : EqDecision Limit.
Proof. solve_decision. Defined.

(** [rate.Every]: a non-positive interval means no limit. *)
Definition Every (interval : Duration) : Limit :=
  if interval <=? 0 then Inf else PerInterval interval.

(** [rate.Limiter] as far as [Wait] consults it. *)
Record Limiter : Type := mkLimiter { limit : Limit; burst : Z }.

Definition NewLimiter (r : Limit) (b : Z) : Limiter := mkLimiter r b.

(** [lim.Wait(ctx)], that is [WaitN(ctx, 1)]: a request larger than the
    burst of a finite limiter is refused, a context that is done yields
    its error, otherwise the call blocks until a token is granted (how
    long is the scheduler's business: every other thread may move while
    the builtin is waiting). The refusal "would exceed context
    deadline", which depends on the clock, is left out. *)
Definition Limiter_Wait (lim : Limiter) (c : Context) : option error :=
  if bool_decide (1 > burst lim) && negb (bool_decide (limit lim = Inf))
  then Some (Errorf ("rate: Wait(n=1) exceeds limiter's burst " +:+ pretty (burst lim)))
  else c.

(** [errgroup.Group]: the first error returned by a goroutine. *)
Record ErrGroup : Type := mkErrGroup { eg_err : option error }.

(* ===================================================================== *)
(** ** time.ParseDuration *)

Definition is_digit (c : ascii) : bool :=
  let k := nat_of_ascii c in (48 <=? k)%nat && (k <=? 57)%nat.

Definition digit_val (c : ascii) : Z := Z.of_nat (nat_of_ascii c) - 48.

Definition two63 : Z := 2 ^ 63.

(** [leadingInt]: the decimal prefix of [s]; [None] on overflow. *)
Fixpoint leadingInt (x : Z) (s : string) : option (Z * string) :=
  match s with
  | String c s' =>
      if is_digit c then
        if x >? two63 / 10 then None
        else
          let x' := x * 10 + digit_val c in
          if x' >? two63 then None else leadingInt x' s'
      else Some (x, s)
  | EmptyString => Some (x, s)
  end.

(** [leadingFraction]: digits after the point as [x / scale]; digits
    beyond the precision are dropped. *)
Fixpoint leadingFraction (x scale : Z) (overflow : bool) (s : string)
  : Z * Z * string :=
  match s with
  | String c s' =>
      if is_digit c then
        if overflow then leadingFraction x scale true s'
        else if x >? (two63 - 1) / 10 then leadingFraction x scale true s'
        else
          let y := x * 10 + digit_val c in
          if y >? two63 then leadingFraction x scale true s'
          else leadingFraction y (scale * 10) false s'
      else (x, scale, s)
  | EmptyString => (x, scale, s)
  end.

(** The unit is the run of characters up to the next digit or point. *)
Fixpoint take_unit (s : string) : string * string :=
  match s with
  | String c s' =>
      if is_digit c || Ascii.eqb c "."%char then (EmptyString, s)
      else let '(u, r) := take_unit s' in (String c u, r)
  | EmptyString => (EmptyString, EmptyString)
  end.

Definition micro_b5 : string :=
  String (ascii_of_nat 194) (String (ascii_of_nat 181) "s").
Definition micro_3bc : string :=
  String (ascii_of_nat 206) (String (ascii_of_nat 188) "s").

Definition unitMap (u : string) : option Z :=
  if String.eqb u "ns" then Some 1
  else if String.eqb u "us" then Some 1000
  else if String.eqb u micro_b5 then Some 1000
  else if String.eqb u micro_3bc then Some 1000
  else if String.eqb u "ms" then Some 1000000
  else if String.eqb u "s" then Some 1000000000
  else if String.eqb u "m" then Some 60000000000
  else if String.eqb u "h" then Some 3600000000000
  else None.

Definition quote (s : string) : string :=
  String (ascii_of_nat 34) (s +:+ String (ascii_of_nat 34) EmptyString).

Definition invalid_duration (orig : string) : error :=
  Errorf ("time: invalid duration " +:+ quote orig).

(** The loop [for s != ""] over the groups [digits(.digits)?unit]. The
    fuel is the length of the input: each round consumes a unit of at
    least one character. The fraction [float64(f) * (float64(unit)/scale)]
    is taken as the truncated quotient [f * unit / scale]. *)
Fixpoint parse_groups (fuel : nat) (orig s : string) (d : Z) : Z + error :=
  match s with
  | EmptyString => inl d
  | String c0 _ =>
      match fuel with
      | O => inr (invalid_duration orig)
      | S fuel' =>
          if negb (Ascii.eqb c0 "."%char || is_digit c0)
          then inr (invalid_duration orig)
          else
            match leadingInt 0 s with
            | None => inr (invalid_duration orig)
            | Some (v, s1) =>
                let pre := negb (Nat.eqb (String.length s) (String.length s1)) in
                let '(f, scale, s2, post) :=
                  match s1 with
                  | String c1 s1' =>
                      if Ascii.eqb c1 "."%char then
                        let '(f, scale, r) := leadingFraction 0 1 false s1' in
                        (f, scale, r,
                         negb (Nat.eqb (String.length s1') (String.length r)))
                      else (0, 1, s1, false)
                  | EmptyString => (0, 1, s1, false)
                  end in
                if negb pre && negb post then inr (invalid_duration orig)
                else
                  let '(u, s3) := take_unit s2 in
                  if String.eqb u EmptyString
                  then inr (Errorf ("time: missing unit in duration " +:+ quote orig))
                  else
                    match unitMap u with
                    | None =>
                        inr (Errorf ("time: unknown unit " +:+ quote u
                                       +:+ " in duration " +:+ quote orig))
                    | Some unit =>
                        if v >? two63 / unit then inr (invalid_duration orig)
                        else
                          let v1 := v * unit in
                          let v2 := if f >? 0 then v1 + f * unit / scale else v1 in
                          if (f >? 0) && (v2 >? two63)
                          then inr (invalid_duration orig)
                          else
                            let d' := d + v2 in
                            if d' >? two63 then inr (invalid_duration orig)
                            else parse_groups fuel' orig s3 d'
                    end
            end
      end
  end.

(** [time.ParseDuration]. *)
Definition ParseDuration (orig : string) : Duration + error :=
  let '(neg, s) :=
    match orig with
    | String c s' =>
        if Ascii.eqb c "-"%char then (true, s')
        else if Ascii.eqb c "+"%char then (false, s')
        else (false, orig)
    | EmptyString => (false, orig)
    end in
  if String.eqb s "0" then inl 0
  else if String.eqb s "" then inr (invalid_duration orig)
  else
    match parse_groups (String.length s) orig s 0 with
    | inr e => inr e
    | inl d =>
        if neg then inl (- d)
        else if d >? two63 - 1 then inr (invalid_duration orig)
        else inl d
    end.


(* ===================================================================== *)
(** ** The group: Make, NewGroup, group.go *)

(** [starlark.Thread] as far as the package uses it: the thread-local
    value stored under the key "context", when it is a [context.Context]. *)
Record Thread : Type := mkThread { local_context : option Context }.

(** One recorded call: [callable]. A [starlark.Tuple] is a list of values
    (nil is the empty list), [kwargs] a list of such tuples. *)
Record callable : Type := mkCallable {
  fn : Value;
  args : list Value;
  kwargs : list (list Value)
}.

(** [Group]. The limiter and the errgroup are owned by the group; [ctx]
    is the context derived by [errgroup.WithContext]. *)
Record Group : Type := mkGroup {
  ctx : Context;
  group : ErrGroup;
  limiter : Limiter;
  frozen : bool;
  n : Z;
  calls : list callable
}.

(** [g.Freeze()]. *)
Definition Group_Freeze (g : Group) : Group :=
  mkGroup (ctx g) (group g) (limiter g) true (n g) (calls g).

(** [g.Truth()]. *)
Definition Group_Truth (g : Group) : bool := negb (frozen g).

(** The host cancels the context the group was derived from. *)
Definition host_cancel (e : error) (g : Group) : Group :=
  mkGroup (match ctx g with None => Some e | Some e0 => Some e0 end)
          (group g) (limiter g) (frozen g) (n g) (calls g).

(** [NewGroup]: the struct literal sets [ctx], [group] and [limiter]; the
    other fields, [n] among them, keep their zero values. *)
Definition NewGroup (c : Context) (n0 : Z) (r : Limit) (b : Z) : Group :=
  mkGroup c (mkErrGroup None) (NewLimiter r b) false 0 [].

(** [starlark.UnpackArgs("group", args, kwargs, "n?", &n, "every?",
    &every, "burst?", &burst)]: positional arguments fill the parameters
    in order, named ones by name; [n] and [burst] are Go ints, [every] a
    string. *)
Definition set_param (idx : nat) (v : Value) (acc : Z * string * Z)
  : (Z * string * Z) + error :=
  let '(pn, pevery, pburst) := acc in
  match idx, v with
  | O, VInt z =>
      if (- 2 ^ 31 <=? z) && (z <? 2 ^ 31) then inl (z, pevery, pburst)
      else inr (Errorf "group: for parameter n: out of range")
  | O, _ => inr (Errorf "group: for parameter n: want int")
  | S O, VString s => inl (pn, s, pburst)
  | S O, _ => inr (Errorf "group: for parameter every: want string")
  | S (S O), VInt z =>
      if (- 2 ^ 31 <=? z) && (z <? 2 ^ 31) then inl (pn, pevery, z)
      else inr (Errorf "group: for parameter burst: out of range")
  | S (S O), _ => inr (Errorf "group: for parameter burst: want int")
  | _, _ => inr (Errorf "group: too many arguments")
  end.

Definition param_index (name : string) : option nat :=
  if String.eqb name "n" then Some 0%nat
  else if String.eqb name "every" then Some 1%nat
  else if String.eqb name "burst" then Some 2%nat
  else None.

Fixpoint unpack_positional (idx : nat) (vs : list Value) (acc : Z * string * Z)
  : (Z * string * Z) + error :=
  match vs with
  | [] => inl acc
  | v :: vs' =>
      match set_param idx v acc with
      | inl acc' => unpack_positional (S idx) vs' acc'
      | inr e => inr e
      end
  end.

Fixpoint unpack_named (npos : nat) (kws : list (list Value))
  (acc : Z * string * Z) : (Z * string * Z) + error :=
  match kws with
  | [] => inl acc
  | [VString name; v] :: kws' =>
      match param_index name with
      | Some idx =>
          if (idx <? npos)%nat
          then inr (Errorf ("group: got multiple values for keyword argument "
                              +:+ quote name))
          else
            match set_param idx v acc with
            | inl acc' => unpack_named npos kws' acc'
            | inr e => inr e
            end
      | None =>
          inr (Errorf ("group: unexpected keyword argument " +:+ quote name))
      end
  | _ :: _ => inr (Errorf "group: malformed keyword argument")
  end.

Definition UnpackArgs (args0 : list Value) (kwargs0 : list (list Value))
  : (Z * string * Z) + error :=
  if (3 <? length args0)%nat
  then inr (Errorf ("group: got " +:+ pretty (length args0)
                      +:+ " arguments, want at most 3"))
  else
    match unpack_positional 0 args0 (0, "", 0) with
    | inl acc => unpack_named (length args0) kwargs0 acc
    | inr e => inr e
    end.

(** [Make]. *)
Definition Make (thread : Thread) (args0 : list Value)
  (kwargs0 : list (list Value)) : option Group * option error :=
  match UnpackArgs args0 kwargs0 with
  | inr e => (None, Some e)
  | inl (pn, every, pburst) =>
      let r : Limit + error :=
        if String.eqb every "" then inl Inf
        else
          match ParseDuration every with
          | inr e => inr e
          | inl d => inl (Every d)
          end in
      match r with
      | inr e => (None, Some e)
      | inl r' =>
          let c :=
            match local_context thread with
            | Some c0 => c0
            | None => Background
            end in
          (Some (NewGroup c pn r' pburst), None)
      end
  end.

(** What a builtin can do besides returning: the interpreter's heap and
    the record of the calls made on the group's collaborators. *)
Inductive Spawned : Type :=
  | SpCall (i : nat)     (* g.group.Go(call) for the call of index i *)
  | SpWorker.            (* g.group.Go(func() error { for call := range queue ... }) *)

Inductive Event : Type :=
  | EvLimiterWait (i : nat) (r : option error)  (* g.limiter.Wait(g.ctx) *)
  | EvGo (w : Spawned)                          (* g.group.Go *)
  | EvMakeChan (cap : Z)                        (* make(chan func() error, g.n) *)
  | EvSend (i : nat)                            (* queue <- call *)
  | EvRecv (i : nat)                            (* call := <-queue *)
  | EvCall (i : nat) (r : option Value * option error)  (* starlark.Call *)
  | EvCtxDone (i : nat) (e : option error)      (* case <-g.ctx.Done() *)
  | EvClose                                     (* close(queue) *)
  | EvJoin (r : option error).                  (* g.group.Wait() returned *)

Record World : Type := mkWorld { heap : Heap; log : list Event }.

(** The loop of [group_go] over the keyword arguments,
    [for i, kwarg := range kwargs { kwarg.Freeze(); kwargs[i] = kwarg }],
    on the slice [ks] that [kwargs] denotes when the loop starts. *)
Fixpoint freeze_kwargs (i : nat) (todo : list (list Value))
  (ks : list (list Value)) (h : Heap) : list (list Value) * Heap :=
  match todo with
  | [] => (ks, h)
  | kwarg :: todo' =>
      freeze_kwargs (S i) todo' (<[i := kwarg]> ks) (Tuple_Freeze kwarg h)
  end.

(** [group_go]. The receiver [g] is passed and returned. *)
Definition group_go (w : World) (g : Group) (args0 : list Value)
  (kwargs0 : list (list Value)) : World * Group * Ret :=
  match args0 with
  | [] => (w, g, (None, Some (Errorf "group.go: missing function arg")))
  | a0 :: rest =>
      if negb (is_callable a0)
      then (w, g, (None, Some (Errorf ("group.go: expected callable got "
                                         +:+ go_type a0))))
      else if frozen g
      then (w, g, (None, Some (Errorf "group: frozen")))
      else
        let h1 := Tuple_Freeze args0 (heap w) in
        (* kwargs = make([]starlark.Tuple, len(kwargs)) *)
        let fresh : list (list Value) := replicate (length kwargs0) [] in
        let '(ks, h2) := freeze_kwargs 0 fresh fresh h1 in
        let w' := mkWorld h2 (log w) in
        match ctx g with
        | Some _ => (w', g, (Some VNone, None))
        | None =>
            (w',
             mkGroup (ctx g) (group g) (limiter g) (frozen g) (n g)
                     (calls g ++ [mkCallable a0 rest ks]),
             (Some VNone, None))
        end
  end.

(* ===================================================================== *)
(** ** group.wait: the interleaving machine *)

(** The closure [call] built in one iteration of the loop: it captures
    the iteration's copies of [i], [fn], [args], [kwargs] (and, by
    reference, [elems] and [g]). *)
Record closure : Type := mkClosure {
  c_i : nat;
  c_fn : Value;
  c_args : list Value;
  c_kwargs : list (list Value)
}.

(** [chan func() error] with its capacity. *)
Record Chan : Type := mkChan { cap : Z; buf : list closure; closed : bool }.

(** A goroutine started through [g.group.Go]. *)
Inductive Goroutine : Type :=
  | GCall (c : closure)        (* runs [call] once *)
  | GWorker                    (* at [for call := range queue] *)
  | GWorkerCall (c : closure)  (* received [call], about to run it *)
  | GExit (e : option error).  (* its function has returned *)

(** Where the builtin's own thread stands. *)
Inductive Pc : Type :=
  | PLoop (i : nat)                (* head of the range loop, index i *)
  | PSelect (i : nat) (c : closure)  (* at the select of iteration i *)
  | PJoin                          (* in g.group.Wait() *)
  | PReturn (r : option (list (option Value)) * option error).

(** The tuple returned by [wait] is given by its element slice; a slot
    never written is Go's nil. *)
Definition WaitRet : Type := option (list (option Value)) * option error.

Record State : Type := mkState {
  pc : Pc;
  gos : list Goroutine;          (* in the order of the g.group.Go calls *)
  queue : option Chan;           (* var queue chan func() error *)
  elems : list (option Value);   (* make([]starlark.Value, len(g.calls)) *)
  err : option error;            (* errgroup: g.err under errOnce *)
  cx : Context;                  (* g.ctx.Err() *)
  trace : list Event
}.

(** Who moves next. *)
Inductive Choice : Type :=
  | Main (take_done : bool)  (* the builtin; at a select whose two cases
                                are both ready, [true] takes <-g.ctx.Done() *)
  | Go (k : nat)             (* the k-th goroutine *)
  | Host (deadline : bool).  (* the parent context is cancelled, or its
                                deadline passes *)

Definition is_exit (gr : Goroutine) : bool :=
  match gr with GExit _ => true | _ => false end.

Definition is_worker (gr : Goroutine) : bool :=
  match gr with GWorker | GWorkerCall _ => true | _ => false end.

(** The cancel function of the derived context. *)
Definition cancel (e : error) (c : Context) : Context :=
  match c with None => Some e | Some e0 => Some e0 end.

(** ** Observations on a trace *)

(** Indices of the tasks for which the limiter was asked, in order. *)
Definition limiter_waits (t : list Event) : list nat :=
  omap (fun e => match e with EvLimiterWait i _ => Some i | _ => None end) t.

(** Indices of the tasks the limiter let through. *)
Definition admitted (t : list Event) : list nat :=
  omap (fun e => match e with EvLimiterWait i None => Some i | _ => None end) t.

(** Indices of the tasks handed to a goroutine of their own or put on
    the queue. *)
Definition dispatched (t : list Event) : list nat :=
  omap (fun e => match e with
                 | EvGo (SpCall i) => Some i
                 | EvSend i => Some i
                 | _ => None
                 end) t.

(** Number of worker goroutines started. *)
Definition workers_spawned (t : list Event) : nat :=
  length (omap (fun e => match e with EvGo SpWorker => Some tt | _ => None end) t).

(** Number of goroutines started for one call each. *)
Definition calls_spawned (t : list Event) : nat :=
  length (omap (fun e => match e with EvGo (SpCall i) => Some i | _ => None end) t).

(** Number of channels made. *)
Definition chans_made (t : list Event) : nat :=
  length (omap (fun e => match e with EvMakeChan c => Some c | _ => None end) t).

(** The calls of task functions, with what they returned. *)
Definition invoked (t : list Event) : list (nat * (option Value * option error)) :=
  omap (fun e => match e with EvCall i r => Some (i, r) | _ => None end) t.

(** The errors returned by task functions, oldest first. *)
Definition task_errors (t : list Event) : list error :=
  omap (fun e => match e with EvCall _ (_, Some x) => Some x | _ => None end) t.

(** ** Measure of the work left *)

Definition go_weight (gr : Goroutine) : nat :=
  match gr with
  | GCall _ => 1
  | GWorker => 1
  | GWorkerCall _ => 2
  | GExit _ => 0
  end.

Definition pc_weight (len : nat) (p : Pc) : nat :=
  match p with
  | PLoop i => 6 * (len - i) + 2
  | PSelect i _ => 6 * (len - i) - 1
  | PJoin => 1
  | PReturn _ => 0
  end.

Definition queue_weight (q : option Chan) : nat :=
  match q with
  | Some c => 2 * length (buf c)
  | None => 0
  end.

Definition weight (len : nat) (s : State) : nat :=
  (pc_weight len (pc s) + queue_weight (queue s)
   + list_sum (map go_weight (gos s)))%nat.

Definition is_host (c : Choice) : bool :=
  match c with Host _ => true | _ => false end.

(** The moves of a schedule that are not the host's. *)
Definition program_moves (sched : list Choice) : nat :=
  length (filter (fun c => is_host c = false) sched).

Section Machine.

(** [starlark.Call(thread, fn, args, kwargs)] on the heap as it is when
    [wait] is called; the functions run are taken to be pure. *)
Variable Call : Heap -> Thread -> Value -> list Value -> list (list Value)
                -> option Value * option error.

Variable h : Heap.
Variable g : Group.

(** Running the closure [call]: a fresh thread carrying [g.ctx], the
    call, and on success the store into [elems[i]]. *)
Definition run_call (c : closure) (s : State)
  : list (option Value) * option error * Event :=
  let r := Call h (mkThread (Some (cx s))) (c_fn c) (c_args c) (c_kwargs c) in
  match snd r with
  | Some e => (elems s, Some e, EvCall (c_i c) r)
  | None => (<[c_i c := fst r]> (elems s), None, EvCall (c_i c) r)
  end.

(** What [errgroup.Group.Go] does when the function returns [e]. *)
Definition finish (k : nat) (e : option error) (el : list (option Value))
  (q : option Chan) (ev : list Event) (s : State) : State :=
  match e with
  | None => mkState (pc s) (<[k := GExit None]> (gos s)) q el (err s) (cx s)
                    (trace s ++ ev)
  | Some e' =>
      match err s with
      | None => mkState (pc s) (<[k := GExit e]> (gos s)) q el (Some e')
                        (cancel Canceled (cx s)) (trace s ++ ev)
      | Some _ => mkState (pc s) (<[k := GExit e]> (gos s)) q el (err s)
                          (cx s) (trace s ++ ev)
      end
  end.

Definition step_go (k : nat) (s : State) : option State :=
  match gos s !! k with
  | Some (GCall c) =>
      let '(el, e, ev) := run_call c s in
      Some (finish k e el (queue s) [ev] s)
  | Some GWorker =>
      match queue s with
      | Some q =>
          match buf q with
          | c :: rest =>
              Some (mkState (pc s) (<[k := GWorkerCall c]> (gos s))
                            (Some (mkChan (cap q) rest (closed q)))
                            (elems s) (err s) (cx s)
                            (trace s ++ [EvRecv (c_i c)]))
          | [] =>
              if closed q then Some (finish k None (elems s) (queue s) [] s)
              else None
          end
      | None => None
      end
  | Some (GWorkerCall c) =>
      let '(el, e, ev) := run_call c s in
      match e with
      | Some _ => Some (finish k e el (queue s) [ev] s)
      | None =>
          Some (mkState (pc s) (<[k := GWorker]> (gos s)) (queue s) el
                        (err s) (cx s) (trace s ++ [ev]))
      end
  | Some (GExit _) => None
  | None => None
  end.

Definition send_ready (s : State) : bool :=
  match queue s with
  | Some q => negb (closed q) && (Z.of_nat (length (buf q)) <? cap q)
  | None => false
  end.

Definition step_main (take_done : bool) (s : State) : option State :=
  match pc s with
  | PLoop i =>
      match calls g !! i with
      | Some v =>
          match Limiter_Wait (limiter g) (cx s) with
          | Some e =>
              Some (mkState (PReturn (None, Some e)) (gos s) (queue s)
                            (elems s) (err s) (cx s)
                            (trace s ++ [EvLimiterWait i (Some e)]))
          | None =>
              let c := mkClosure i (fn v) (args v) (kwargs v) in
              if n g <=? 0 then
                Some (mkState (PLoop (S i)) (gos s ++ [GCall c]) (queue s)
                              (elems s) (err s) (cx s)
                              (trace s ++ [EvLimiterWait i None; EvGo (SpCall i)]))
              else
                let '(q, ev1) :=
                  if Nat.eqb i 0
                  then (Some (mkChan (n g) [] false), [EvMakeChan (n g)])
                  else (queue s, []) in
                let '(gs, ev2) :=
                  if Z.of_nat i <? n g
                  then (gos s ++ [GWorker], [EvGo SpWorker])
                  else (gos s, []) in
                Some (mkState (PSelect i c) gs q (elems s) (err s) (cx s)
                              (trace s ++ [EvLimiterWait i None] ++ ev1 ++ ev2))
          end
      | None =>
          let '(q, ev) :=
            match queue s with
            | Some q0 => (Some (mkChan (cap q0) (buf q0) true), [EvClose])
            | None => (None, [])
            end in
          Some (mkState PJoin (gos s) q (elems s) (err s) (cx s)
                        (trace s ++ ev))
      end
  | PSelect i c =>
      let send := 
        match queue s with
        | Some q =>
            Some (mkState (PLoop (S i)) (gos s)
                          (Some (mkChan (cap q) (buf q ++ [c]) (closed q)))
                          (elems s) (err s) (cx s) (trace s ++ [EvSend i]))
        | None => None
        end in
      let done :=
        Some (mkState (PReturn (None, cx s)) (gos s) (queue s) (elems s)
                      (err s) (cx s) (trace s ++ [EvCtxDone i (cx s)])) in
      match send_ready s, cx s with
      | true, Some _ => if take_done then done else send
      | true, None => send
      | false, Some _ => done
      | false, None => None
      end
  | PJoin =>
      if forallb is_exit (gos s) then
        match err s with
        | Some e =>
            Some (mkState (PReturn (None, Some e)) (gos s) (queue s) (elems s)
                          (err s) (cancel Canceled (cx s))
                          (trace s ++ [EvJoin (Some e)]))
        | None =>
            Some (mkState (PReturn (Some (elems s), None)) (gos s) (queue s)
                          (elems s) (err s) (cancel Canceled (cx s))
                          (trace s ++ [EvJoin None]))
        end
      else None
  | PReturn _ => None
  end.

Definition step_host (deadline : bool) (s : State) : option State :=
  Some (mkState (pc s) (gos s) (queue s) (elems s) (err s)
                (cancel (if deadline then DeadlineExceeded else Canceled) (cx s))
                (trace s)).

(** One move; [None] when the chosen thread is blocked or has ended. *)
Definition step (c : Choice) (s : State) : option State :=
  match c with
  | Main b => step_main b s
  | Go k => step_go k s
  | Host d => step_host d s
  end.

(** A schedule is run move by move; it is refused as soon as it picks a
    thread that cannot move. *)
Fixpoint exec (sched : list Choice) (s : State) : option State :=
  match sched with
  | [] => Some s
  | c :: sched' =>
      match step c s with
      | Some s' => exec sched' s'
      | None => None
      end
  end.

(** The state after [g.Freeze()] and the two declarations before the
    loop. *)
Definition wait_init : State :=
  mkState (PLoop 0) [] None (replicate (length (calls g)) None)
          (eg_err (group g)) (ctx g) [].

(** *** Invariants of the machine *)

(** At a select the index is that of a recorded call. *)
Definition pc_in_range (s : State) : Prop :=
  match pc s with
  | PLoop i => (i <= length (calls g))%nat
  | PSelect i _ => (i < length (calls g))%nat
  | _ => True
  end.

(** The closure built by iteration [i] for the recorded call [v]. *)
Definition closure_of (i : nat) (v : callable) : closure :=
  mkClosure i (fn v) (args v) (kwargs v).

(** How the counters of the trace follow the program counter: [k] tasks
    admitted, [m] asked for, [d] dispatched. *)
Definition pc_shape (s : State) (k m d : nat) : Prop :=
  match pc s with
  | PLoop i => k = i /\ m = i /\ d = i
  | PSelect i c =>
      k = S i /\ m = S i /\ d = i /\
      exists v, calls g !! i = Some v /\ c = closure_of i v
  | PJoin => k = length (calls g) /\ m = length (calls g) /\ d = length (calls g)
  | PReturn _ => (d <= k <= m)%nat /\ (m <= S k)%nat /\ (m <= length (calls g))%nat
                 /\ (S d >= k)%nat
  end.

(** How the pool follows the number [k] of admitted tasks. *)
Definition pool_shape (s : State) (k : nat) : Prop :=
  if n g <=? 0 then
    queue s = None /\ workers_spawned (trace s) = 0%nat /\
    chans_made (trace s) = 0%nat /\ calls_spawned (trace s) = k /\
    length (gos s) = k
  else
    Z.of_nat (workers_spawned (trace s)) = Z.min (n g) (Z.of_nat k) /\
    chans_made (trace s) = Nat.min 1 k /\ calls_spawned (trace s) = 0%nat /\
    length (gos s) = workers_spawned (trace s) /\
    (k = 0%nat -> queue s = None) /\
    ((0 < k)%nat -> exists q, queue s = Some q /\ cap q = n g).

Definition shape (s : State) : Prop :=
  pc_in_range s /\ length (elems s) = length (calls g) /\
  exists k m d,
    admitted (trace s) = seq 0 k /\
    limiter_waits (trace s) = seq 0 m /\
    dispatched (trace s) = seq 0 d /\
    pc_shape s k m d /\ pool_shape s k.


(** The closure a goroutine holds and has still to run. *)
Definition held (gr : Goroutine) : option closure :=
  match gr with
  | GCall c => Some c
  | GWorkerCall c => Some c
  | _ => None
  end.

(** The closures built and not yet run: the one at the select, those in
    the channel, those held by goroutines. *)
Definition flying (s : State) : list closure :=
  match pc s with PSelect _ c => [c] | _ => [] end
  ++ match queue s with Some q => buf q | None => [] end
  ++ omap held (gos s).

Definition closure_ok (c : closure) : Prop :=
  exists v, calls g !! c_i c = Some v /\ c = closure_of (c_i c) v.

Definition closures_ok (s : State) : Prop :=
  forall c, c ∈ flying s -> closure_ok c.

Definition is_call (gr : Goroutine) : bool :=
  match gr with GCall _ => true | _ => false end.

(** The pool: goroutines of one kind only, the channel closed exactly by
    the statement after the loop, and a worker that returned nil left an
    empty closed channel behind. *)
Definition pool_ok (s : State) : Prop :=
  (if n g <=? 0
   then Forall (fun gr => is_worker gr = false) (gos s) /\
        match pc s with PSelect _ _ => False | _ => True end
   else Forall (fun gr => is_call gr = false) (gos s)) /\
  (forall q, queue s = Some q ->
     match pc s with
     | PLoop _ | PSelect _ _ => closed q = false
     | PJoin => closed q = true
     | PReturn _ => True
     end) /\
  (0 < n g -> GExit None ∈ gos s ->
   exists q, queue s = Some q /\ closed q = true /\ buf q = []).

(** No task has failed and nobody has cancelled. *)
Definition quiet (s : State) : Prop :=
  err s = None /\
  (forall e, GExit (Some e) ∉ gos s) /\
  match pc s with
  | PReturn r => snd r = None /\ forallb is_exit (gos s) = true
  | _ => cx s = None
  end.

(** What the function of a recorded call returns under a live context. *)
Definition outcome (v : callable) : option Value * option error :=
  Call h (mkThread (Some None)) (fn v) (args v) (kwargs v).

Definition result_of (v : callable) : option Value := fst (outcome v).

Definition results : list (option Value) := map result_of (calls g).

(** Every recorded function returns without error. *)
Definition succeed : Prop :=
  forall v, v ∈ calls g -> snd (outcome v) = None.

(** The limiter lets a caller with a live context through. *)
Definition admits : Prop := Limiter_Wait (limiter g) None = None.

(** Number of iterations the loop has entered. *)
Definition progress_index (s : State) : nat :=
  match pc s with
  | PLoop i => i
  | PSelect i _ => S i
  | _ => length (calls g)
  end.

(** Every task the loop has gone through has its slot written or its
    closure still to run; a returned tuple is the tuple of results. *)
Definition filled (s : State) : Prop :=
  (forall j v, calls g !! j = Some v -> (j < progress_index s)%nat ->
     elems s !! j = Some (result_of v) \/ closure_of j v ∈ flying s) /\
  match pc s with
  | PReturn r => r = (Some results, None)
  | _ => True
  end.


(** The first error a task function returned. *)
Definition first_error (t : list Event) : option error := head (task_errors t).

(** The errgroup holds the first task error and has cancelled the context
    when there is one; a returned builtin gave either the slots after a
    join without error, or nil and an error: the errgroup's after the
    join, the limiter's, or the context's at the select. *)
Definition errs_ok (s : State) : Prop :=
  err s = first_error (trace s) /\
  (err s <> None -> cx s <> None) /\
  match pc s with
  | PReturn r =>
      (exists el, r = (Some el, None) /\ err s = None /\
                  forallb is_exit (gos s) = true /\ EvJoin None ∈ trace s) \/
      (exists e, r = (None, Some e) /\
         ((err s = Some e /\ EvJoin (Some e) ∈ trace s) \/
          (exists i, EvLimiterWait i (Some e) ∈ trace s) \/
          (exists i, EvCtxDone i (Some e) ∈ trace s)))
  | _ => True
  end.

(** Every call made was admitted by the limiter first and is the call of
    a recorded task with its recorded arguments. *)
Definition called_ok (s : State) : Prop :=
  (forall x, x ∈ flying s -> c_i x ∈ admitted (trace s)) /\
  (forall i r, (i, r) ∈ invoked (trace s) ->
     i ∈ admitted (trace s) /\
     exists v th, calls g !! i = Some v /\
                  r = Call h th (fn v) (args v) (kwargs v)).


(** The invariant of a run in which no task fails and nobody cancels. *)
Definition good (s : State) : Prop :=
  shape s /\ closures_ok s /\ pool_ok s /\ quiet s /\ filled s.

Definition no_host (sched : list Choice) : Prop :=
  Forall (fun c => is_host c = false) sched.

(** The indices of the closures built so far: those still to run, then
    those that have run. *)
Definition ledger (s : State) : list nat :=
  (c_i <$> flying s) ++ (fst <$> invoked (trace s)).

(** No index is in the ledger twice, every index in it is one the loop
    has gone through, and the slot of a call that returned a value holds
    that value. *)
Definition once (s : State) : Prop :=
  NoDup (ledger s) /\
  (forall j, j ∈ ledger s -> (j < progress_index s)%nat) /\
  (forall i r, (i, r) ∈ invoked (trace s) -> snd r = None ->
     elems s !! i = Some (fst r)).

(** Unless the builtin has returned an error, every index the loop has
    gone through is in the ledger; the tuple returned is the slice of
    slots, and every goroutine has ended by then. *)
Definition complete (s : State) : Prop :=
  match pc s with
  | PReturn (None, _) => True
  | PReturn (Some el, _) =>
      el = elems s /\ forallb is_exit (gos s) = true /\ err s = None /\
      forall j, (j < progress_index s)%nat -> j ∈ ledger s
  | _ => forall j, (j < progress_index s)%nat -> j ∈ ledger s
  end.

(** A goroutine that ended with an error left one in the errgroup, and
    so did a function that returned one. *)
Definition failed_known (s : State) : Prop :=
  (forall e, GExit (Some e) ∈ gos s -> err s <> None) /\
  (err s = None -> task_errors (trace s) = []).

(** The channel never holds more closures than its capacity. *)
Definition buf_bounded (s : State) : Prop :=
  forall q, queue s = Some q -> Z.of_nat (length (buf q)) <= cap q.

(** The invariant of every run, whatever the limiter, the context and
    the functions do. *)
Definition sound (s : State) : Prop :=
  shape s /\ pool_ok s /\ once s /\ complete s /\ failed_known s /\
  buf_bounded s.

End Machine.

(** [group_wait] under a schedule: the world and the group afterwards,
    and what the builtin returned, if it has returned by the end of the
    schedule. *)
Definition group_wait
  (Call : Heap -> Thread -> Value -> list Value -> list (list Value)
          -> option Value * option error)
  (w : World) (g : Group) (sched : list Choice)
  : World * Group * option WaitRet :=
  if frozen g
  then (w, g, Some (None, Some (Errorf "group.wait: frozen")))
  else
    let g' := Group_Freeze g in
    match exec Call (heap w) g' sched (wait_init g') with
    | Some s =>
        (mkWorld (heap w) (log w ++ trace s),
         mkGroup (cx s) (mkErrGroup (err s)) (limiter g') (frozen g') (n g')
                 (calls g'),
         match pc s with PReturn r => Some r | _ => None end)
    | None => (w, g', None)
    end.

(* ===================================================================== *)
(** ** Further notions for the runs of group.wait *)

(** The states of a [wait] that has no call to run: nothing started,
    nothing made, and the builtin before the loop's end, in the join, or
    back with the empty tuple. *)
Definition idle (s : State) : Prop :=
  gos s = [] /\ queue s = None /\ elems s = [] /\ err s = None /\
  ((pc s = PLoop 0 /\ trace s = []) \/
   (pc s = PJoin /\ trace s = []) \/
   (pc s = PReturn (Some [], None) /\ trace s = [EvJoin None])).

(** The argument tuples [go] accepts: a callable first. *)
Definition well_formed_call (a : list Value) : Prop :=
  match a with
  | f :: _ => is_callable f = true
  | [] => False
  end.

(** The call [go] records for the argument tuple [a] without keyword
    arguments. *)
Definition recorded (a : list Value) : callable :=
  mkCallable (hd VNone a) (tl a) [].

(** The refusal of a limiter asked for more than its burst. *)
Definition burst_error (b : Z) : error :=
  Errorf ("rate: Wait(n=1) exceeds limiter's burst " +:+ pretty b).

(** The states of a [wait] whose limiter refuses with [e]: nothing
    started, and the builtin before its first request or back with the
    refusal. *)
Definition refused (e : error) (s : State) : Prop :=
  gos s = [] /\ queue s = None /\ invoked (trace s) = [] /\
  (pc s = PLoop 0 \/ pc s = PReturn (None, Some e)).

(** A thread whose context, if it carries one, is live. *)
Definition live_thread (thread : Thread) : Prop :=
  local_context thread = None \/ local_context thread = Some None.

(** What the functions of the argument tuples [cs] return under a live
    context on the heap [h]. *)
Definition script_results
  (Call : Heap -> Thread -> Value -> list Value -> list (list Value)
          -> option Value * option error)
  (h : Heap) (cs : list (list Value)) : list (option Value * option error) :=
  map (fun a => Call h (mkThread (Some None)) (hd VNone a) (tl a) []) cs.

(* ===================================================================== *)
(** ** The group as a Starlark value *)

(** [g.String()], [g.Type()], [g.Hash()]. *)
Definition Group_String (g : Group) : string := "group()".
Definition Group_Type (g : Group) : string := "group".
Definition Group_Hash (g : Group) : Z * option error :=
  (0, Some (Errorf "unhashable type: group")).

(** The Go functions behind the two methods. *)
Inductive BuiltinFn : Type := fn_group_go | fn_group_wait.

(** [starlark.Builtin]: name, function and receiver. *)
Record Builtin : Type := mkBuiltin {
  b_name : string;
  b_fn : BuiltinFn;
  b_recv : option Group
}.

Definition NewBuiltin (name : string) (f : BuiltinFn) : Builtin :=
  mkBuiltin name f None.

Definition BindReceiver (b : Builtin) (g : Group) : Builtin :=
  mkBuiltin (b_name b) (b_fn b) (Some g).

Definition groupMethods : gmap string Builtin :=
  <["go" := NewBuiltin "group.go" fn_group_go]>
    (<["wait" := NewBuiltin "group.wait" fn_group_wait]> ∅).

(** [g.Attr(name)]: nil, nil for a name that is no method. *)
Definition Group_Attr (g : Group) (name : string)
  : option Builtin * option error :=
  match groupMethods !! name with
  | None => (None, None)
  | Some b => (Some (BindReceiver b g), None)
  end.

(** [sort.Strings]: ascending in the byte order of Go's strings. *)
Definition string_le (a b : string) : Prop := String.leb a b = true.

Global Instance string_le_dec a b : Decision (string_le a b).
Proof. unfold string_le. apply _. Defined.

Definition sort_Strings (l : list string) : list string :=
  merge_sort string_le l.

(** The orders in which [range groupMethods] may give the names: Go
    leaves the order of a map's keys open. *)
Definition range_order (order : list string) : Prop :=
  order ≡ₚ (map_to_list groupMethods).*1.

(** [g.AttrNames()], given the order in which the range gave the names. *)
Definition Group_AttrNames (g : Group) (order : list string) : list string :=
  sort_Strings order.

(* ===================================================================== *)
(** ** The earlier revision: go dispatches at once *)

(** An earlier revision of starlarkgroup.go has another [group_go] and
    [group_wait] (and a [Group] with the fields [i], [queue], [results]
    in place of [calls]), in which [go] itself waits on the limiter and hands the
    call to the errgroup, and [wait] sorts the results the goroutines have
    appended. It is embedded here as far as the builtins go; the
    goroutines run between the calls of the builtins and are seen only
    through what they leave in [results] and in the errgroup. *)
Module Eager.

(** [result]: position and value. *)
Record result : Type := mkResult { res_i : nat; res_v : Value }.

(** [sort.Sort(byPos(results))]: ordered by [Less], that is by position.
    Positions are handed out once each, so the sorted slice is the same
    for every sorting algorithm. *)
Definition byPos (a b : result) : Prop := (res_i a <= res_i b)%nat.

Global Instance byPos_dec a b : Decision (byPos a b).
Proof. unfold byPos. apply _. Defined.

Global Instance byPos_total : Total byPos.
Proof. intros a b. unfold byPos. lia. Qed.

Definition sort_byPos (rs : list result) : list result :=
  merge_sort byPos rs.

Record Group : Type := mkGroup {
  ctx : Context;
  group : ErrGroup;
  limiter : Limiter;
  frozen : bool;
  n : Z;
  i : nat;
  queue : option Chan;
  results : list result
}.

Definition NewGroup (c : Context) (n0 : Z) (r : Limit) (b : Z) : Group :=
  mkGroup c (mkErrGroup None) (NewLimiter r b) false 0 0 None [].

(** [group_go]. [take_done] says which case the select takes when it is
    reached with a full channel or a context cancelled in the meantime. *)
Definition group_go (w : World) (g : Group) (args0 : list Value)
  (kwargs0 : list (list Value)) (take_done : bool) : World * Group * Ret :=
  match args0 with
  | [] => (w, g, (None, Some (Errorf "group.go: missing function arg")))
  | a0 :: rest =>
      if negb (is_callable a0)
      then (w, g, (None, Some (Errorf ("group.go: expected callable got "
                                         +:+ go_type a0))))
      else if frozen g
      then (w, g, (None, Some (Errorf "group: frozen")))
      else
        let h1 := Tuple_Freeze args0 (heap w) in
        let h2 := foldl (fun h' kwarg => Tuple_Freeze kwarg h') h1 kwargs0 in
        match ctx g with
        | Some _ => (mkWorld h2 (log w), g, (Some VNone, None))
        | None =>
            let i0 := i g in
            let waited := EvLimiterWait i0 (Limiter_Wait (limiter g) (ctx g)) in
            let call := mkClosure i0 a0 rest kwargs0 in
            if n g <=? 0 then
              (mkWorld h2 (log w ++ [waited; EvGo (SpCall i0)]),
               mkGroup (ctx g) (group g) (limiter g) (frozen g) (n g) (S i0)
                       (queue g) (results g),
               (Some VNone, None))
            else
              let '(q, ev1) :=
                if Nat.eqb i0 0
                then (Some (mkChan (n g) [] false), [EvMakeChan (n g)])
                else (queue g, []) in
              let ev2 := if Z.of_nat i0 <? n g then [EvGo SpWorker] else [] in
              let '(q', ev3) :=
                if take_done then (q, [EvCtxDone i0 (Some Canceled)])
                else
                  (match q with
                   | Some c => Some (mkChan (cap c) (buf c ++ [call]) (closed c))
                   | None => None
                   end, [EvSend i0]) in
              (mkWorld h2 (log w ++ [waited] ++ ev1 ++ ev2 ++ ev3),
               mkGroup (ctx g) (group g) (limiter g) (frozen g) (n g) (S i0)
                       q' (results g),
               (Some VNone, None))
        end
  end.

(** [group_wait], given what [g.group.Wait()] returns once the goroutines
    have ended. The list returned is given by its elements. *)
Definition group_wait (w : World) (g : Group) (joined : option error)
  : World * Group * (option (list Value) * option error) :=
  if frozen g
  then (w, g, (None, Some (Errorf "group.wait: frozen")))
  else
    let '(q, ev) :=
      match queue g with
      | Some c => (Some (mkChan (cap c) (buf c) true), [EvClose])
      | None => (None, [])
      end in
    let w' := mkWorld (heap w) (log w ++ ev ++ [EvJoin joined]) in
    match joined with
    | Some e =>
        (w', mkGroup (ctx g) (mkErrGroup (Some e)) (limiter g) true (n g) (i g)
                     q (results g),
         (None, Some e))
    | None =>
        let sorted := sort_byPos (results g) in
        (w', mkGroup (ctx g) (group g) (limiter g) true (n g) (i g) q sorted,
         (Some (map res_v sorted), None))
    end.

End Eager.

(* ===================================================================== *)
(** ** A small interpreter and sample runs *)

(** [square], [fail] and [len] as the callables of the examples. *)
Definition sample_call (h : Heap) (th : Thread) (f : Value)
  (args0 : list Value) (kwargs0 : list (list Value))
  : option Value * option error :=
  match f, args0 with
  | VCallable "square", [VInt x] => (Some (VInt (x * x)), None)
  | VCallable "len", [VList l] =>
      match h !! l with
      | Some o => (Some (VInt (Z.of_nat (length (lelems o)))), None)
      | None => (None, Some (EvalError "len: no such list"))
      end
  | VCallable "fail", _ => (None, Some (EvalError "boom"))
  | _, _ => (None, Some (EvalError "not supported"))
  end.

Definition world0 : World := mkWorld ∅ [].

(** [g.go(a...)] for each argument tuple of [cs] in turn. *)
Definition go_all (w : World) (g : Group) (cs : list (list Value))
  : World * Group :=
  foldl (fun '(w', g') a => let '(w'', g'', _) := group_go w' g' a [] in (w'', g''))
        (w, g) cs.

(** The three squares in a group whose field [n] is [n0], as [NewGroup]
    would leave it if it stored its argument. *)
Definition squares_group (n0 : Z) : Group :=
  mkGroup None (mkErrGroup None) (NewLimiter Inf 0) false n0
    [mkCallable (VCallable "square") [VInt 3] [];
     mkCallable (VCallable "square") [VInt 4] [];
     mkCallable (VCallable "square") [VInt 5] []].

(** A run of the pool of two workers over the three squares. *)
Definition pooled_completion : list Choice :=
  [Main false; Main false; Main false; Main false; Go 1; Main false;
   Main false; Go 0; Go 1; Go 0; Main false; Go 1; Go 1; Go 0; Go 1;
   Main false].

(** [g = group()] on a thread without a context. *)
Definition fresh_group : Group := NewGroup Background 0 Inf 0.

(** [g.go(square, 3); g.go(square, 4); g.go(square, 5)]. *)
Definition squares : Group :=
  snd (go_all world0 fresh_group
         [[VCallable "square"; VInt 3]; [VCallable "square"; VInt 4];
          [VCallable "square"; VInt 5]]).

(** [g.go(fail); g.go(square, 4)]. *)
Definition failing_group : Group :=
  snd (go_all world0 fresh_group
         [[VCallable "fail"]; [VCallable "square"; VInt 4]]).

(** The first call runs and fails before the loop reaches the second. *)
Definition fail_early : list Choice := [Main false; Go 0; Main false].

(** All three calls are started, complete in the order 2, 0, 1, and the
    builtin joins. *)
Definition reversed_completion : list Choice :=
  [Main false; Main false; Main false; Go 2; Go 0; Main false; Go 1;
   Main false].

(** The three squares, and the host has cancelled the context since. *)
Definition cancelled_squares : Group := host_cancel Canceled squares.

(** A heap with the list [[1]] at address 1, as after [l = [1]]. *)
Definition heap1 : Heap := {[ 1%positive := mkList [VInt 1] false ]}.

Definition world1 : World := mkWorld heap1 [].

(** [g.go(len, x = l)] and [g.go(len, l)]. *)
Definition go_named (g : Group) : World * Group * Ret :=
  group_go world1 g [VCallable "len"] [[VString "x"; VList 1]].

Definition go_positional (g : Group) : World * Group * Ret :=
  group_go world1 g [VCallable "len"; VList 1] [].

(** A fresh group whose context the host has cancelled. *)
Definition cancelled_group : Group := host_cancel Canceled fresh_group.

(** [group(n = 2)] and [group(every = ...)]. *)
Definition make_n2 : option Group * option error :=
  Make (mkThread None) [] [[VString "n"; VInt 2]].

Definition make_every (every : string) : option Group * option error :=
  Make (mkThread None) [] [[VString "every"; VString every]].

(** The group of [group(n = 2)] after three [go(square, _)]. *)
Definition capped_squares : Group :=
  match fst make_n2 with
  | Some g =>
      snd (go_all world0 g
             [[VCallable "square"; VInt 3]; [VCallable "square"; VInt 4];
              [VCallable "square"; VInt 5]])
  | None => fresh_group
  end.

(** The earlier revision at [g.go(len, x = l)]. *)
Definition eager_go_named : World * Eager.Group * Ret :=
  Eager.group_go world1 (Eager.NewGroup Background 0 Inf 0)
    [VCallable "len"] [[VString "x"; VList 1]] false.

(** A heap with the list [[[1]]]: the list at address 1 holds the list at
    address 2, as after [inner = [1]; outer = [inner]]. *)
Definition heap2 : Heap :=
  {[ 1%positive := mkList [VList 2] false; 2%positive := mkList [VInt 1] false ]}.

Definition world2 : World := mkWorld heap2 [].

(** A group of the earlier revision whose goroutines have left the
    results of positions 1 and 0, in this order. *)
Definition eager_done : Eager.Group :=
  Eager.mkGroup None (mkErrGroup None) (NewLimiter Inf 0) false 0 2 None
    [Eager.mkResult 1 (VInt 16); Eager.mkResult 0 (VInt 9)].


(* ===================================================================== *)
(** * Properties *)

Ltac step_cases H :=
  unfold step, step_main, step_go, step_host, finish, run_call in H;
  try match goal with Hn : (n _ <=? 0) = _ |- _ => rewrite Hn in H end;
  repeat (case_match; simplify_eq); simpl in *; simplify_eq.

Ltac zbool :=
  repeat match goal with
  | H : (_ <=? _) = true |- _ => apply Z.leb_le in H
  | H : (_ <=? _) = false |- _ => apply Z.leb_gt in H
  | H : (_ <? _) = true |- _ => apply Z.ltb_lt in H
  | H : (_ <? _) = false |- _ => apply Z.ltb_ge in H
  | H : Nat.eqb _ _ = true |- _ => apply Nat.eqb_eq in H
  | H : Nat.eqb _ _ = false |- _ => apply Nat.eqb_neq in H
  end.

Lemma admitted_app t1 t2 : admitted (t1 ++ t2) = admitted t1 ++ admitted t2.
Proof. apply omap_app. Qed.
Lemma limiter_waits_app t1 t2 :
  limiter_waits (t1 ++ t2) = limiter_waits t1 ++ limiter_waits t2.
Proof. apply omap_app. Qed.
Lemma dispatched_app t1 t2 :
  dispatched (t1 ++ t2) = dispatched t1 ++ dispatched t2.
Proof. apply omap_app. Qed.
Lemma invoked_app t1 t2 : invoked (t1 ++ t2) = invoked t1 ++ invoked t2.
Proof. apply omap_app. Qed.
Lemma task_errors_app t1 t2 :
  task_errors (t1 ++ t2) = task_errors t1 ++ task_errors t2.
Proof. apply omap_app. Qed.
Lemma workers_spawned_app t1 t2 :
  workers_spawned (t1 ++ t2) = (workers_spawned t1 + workers_spawned t2)%nat.
Proof. unfold workers_spawned. by rewrite omap_app, length_app. Qed.
Lemma chans_made_app t1 t2 :
  chans_made (t1 ++ t2) = (chans_made t1 + chans_made t2)%nat.
Proof. unfold chans_made. by rewrite omap_app, length_app. Qed.
Lemma calls_spawned_app t1 t2 :
  calls_spawned (t1 ++ t2) = (calls_spawned t1 + calls_spawned t2)%nat.
Proof. unfold calls_spawned. by rewrite omap_app, length_app. Qed.

Ltac trace_simpl :=
  rewrite ?admitted_app, ?limiter_waits_app, ?dispatched_app, ?invoked_app,
    ?task_errors_app, ?workers_spawned_app, ?chans_made_app,
    ?calls_spawned_app in *;
  cbn [admitted limiter_waits dispatched invoked task_errors workers_spawned
       chans_made calls_spawned omap list_omap length app] in *;
  rewrite ?app_nil_r, ?Nat.add_0_r in *.

Lemma list_sum_insert {A} (f : A -> nat) (l : list A) k x y :
  l !! k = Some x ->
  (list_sum (map f (<[k := y]> l)) + f x = list_sum (map f l) + f y)%nat.
Proof.
  revert k. induction l as [|a l IH]; intros [|k] Hk; simplify_eq/=; try lia.
  specialize (IH _ Hk). lia.
Qed.

Lemma list_sum_app_map {A} (f : A -> nat) (l1 l2 : list A) :
  list_sum (map f (l1 ++ l2)) = (list_sum (map f l1) + list_sum (map f l2))%nat.
Proof. by rewrite map_app, list_sum_app. Qed.

Section Runs.

Variable Call : Heap -> Thread -> Value -> list Value -> list (list Value)
                -> option Value * option error.
Variable h : Heap.
Variable g : Group.

Abbreviation len := (length (calls g)).
Abbreviation step := (step Call h g).
Abbreviation exec := (exec Call h g).
Abbreviation init := (wait_init g).

Lemma exec_app sched1 sched2 s :
  exec (sched1 ++ sched2) s
  = match exec sched1 s with Some s' => exec sched2 s' | None => None end.
Proof.
  revert s. induction sched1 as [|c sched1 IH]; intros s; simpl; [done|].
  destruct (step c s); [apply IH | done].
Qed.

(** A property kept by every move holds along every run. *)
Lemma exec_invariant (P : State -> Prop) :
  (forall c s s', P s -> step c s = Some s' -> P s') ->
  forall sched s s', P s -> exec sched s = Some s' -> P s'.
Proof.
  intros Hstep sched. induction sched as [|c sched IH]; intros s s' Hs He.
  - by simplify_eq/=.
  - simpl in He. destruct (step c s) as [s1|] eqn:E; [|done]. eauto.
Qed.

(** The same for runs without moves of the host. *)
Lemma exec_invariant_nohost (P : State -> Prop) :
  (forall c s s', is_host c = false -> P s -> step c s = Some s' -> P s') ->
  forall sched s s',
    Forall (fun c => is_host c = false) sched ->
    P s -> exec sched s = Some s' -> P s'.
Proof.
  intros Hstep sched. induction sched as [|c sched IH]; intros s s' Hf Hs He.
  - by simplify_eq/=.
  - simpl in He. destruct (step c s) as [s1|] eqn:E; [|done].
    inversion Hf; subst. eauto.
Qed.


Lemma pc_in_range_step c s s' :
  pc_in_range g s -> step c s = Some s' -> pc_in_range g s'.
Proof.
  unfold pc_in_range. intros Hs H. destruct c; step_cases H; simpl in *;
    repeat match goal with
    | H : calls g !! _ = Some _ |- _ => apply lookup_lt_Some in H
    | H : pc ?s = _ |- _ => rewrite H in *
    end; try lia; try done.
Qed.

Lemma pc_in_range_init : pc_in_range g init.
Proof. unfold pc_in_range; simpl; lia. Qed.

(** Every move of the program uses up some of the work left. *)
Lemma weight_step c s s' :
  is_host c = false -> pc_in_range g s -> step c s = Some s' ->
  (weight len s' < weight len s)%nat.
Proof.
  unfold pc_in_range, weight. intros Hc Hs H.
  destruct c as [b|k|d]; [| |done].
  - step_cases H; simpl in *;
      repeat match goal with
      | H : pc ?s = _ |- _ => rewrite H in *
      | H : queue ?s = _ |- _ => rewrite H in *
      | H : calls g !! _ = Some _ |- _ => apply lookup_lt_Some in H
      end; simpl in *;
      rewrite ?list_sum_app_map, ?length_app; simpl; try lia.
  - step_cases H; simpl in *;
      repeat match goal with
      | H : queue ?s = _ |- _ => rewrite H in *
      | H : buf _ = _ |- _ => rewrite H in *
      end; simpl in *;
      match goal with
      | H : gos ?s !! ?k = Some _ |- context [<[?k := ?y]> (gos ?s)] =>
          pose proof (list_sum_insert go_weight _ _ _ y H)
      end; simpl in *; lia.
Qed.

Lemma exec_pc_in_range sched s s' :
  pc_in_range g s -> exec sched s = Some s' -> pc_in_range g s'.
Proof. apply exec_invariant. intros c s1 s2. apply pc_in_range_step. Qed.

Lemma weight_host d s s' :
  step (Host d) s = Some s' -> weight len s' = weight len s.
Proof. intros H. simpl in H. unfold step_host in H. by simplify_eq. Qed.

(** The program makes at most [weight] moves, whatever the schedule. *)
Lemma exec_weight sched s s' :
  pc_in_range g s -> exec sched s = Some s' ->
  (program_moves sched + weight len s' <= weight len s)%nat.
Proof.
  unfold program_moves.
  revert s. induction sched as [|c sched IH]; intros s Hs He.
  - simplify_eq/=. lia.
  - simpl in He. destruct (step c s) as [s1|] eqn:E; [|done].
    specialize (IH s1 (pc_in_range_step _ _ _ Hs E) He).
    rewrite filter_cons. destruct (is_host c) eqn:Hc.
    + destruct c; try done. apply weight_host in E.
      rewrite decide_False by done. lia.
    + pose proof (weight_step _ _ _ Hc Hs E).
      rewrite decide_True by done. simpl. lia.
Qed.


Lemma seq_snoc k : seq 0 k ++ [k] = seq 0 (S k).
Proof. by rewrite seq_S. Qed.

Lemma shape_init : shape g init.
Proof.
  split; [apply pc_in_range_init|].
  split; [apply length_replicate|]. exists O, O, O.
  unfold pc_shape, pool_shape, workers_spawned; simpl.
  case_match; repeat split; try done; lia.
Qed.

Local Arguments Nat.min : simpl never.

Ltac use_pool :=
  repeat match goal with
  | H : ?k = 0%nat -> _ |- _ =>
      first [ specialize (H ltac:(lia)) | clear H ]
  | H : (0 < ?k)%nat -> exists q, _ |- _ =>
      first [ destruct H as (? & ? & ?); [lia|] | clear H ]
  end; simplify_eq.

Lemma shape_step c s s' : shape g s -> step c s = Some s' -> shape g s'.
Proof.
  intros (Hr & Hl & k & m & d & Ha & Hw & Hd & Hp & Hq) H.
  split; [by eapply pc_in_range_step|].
  unfold shape, pc_in_range, pc_shape, pool_shape in *.
  destruct (n g <=? 0) eqn:Hn.
  all: destruct c; step_cases H.
  all: trace_simpl.
  all: rewrite ?length_insert.
  all: repeat match goal with
         | H : pc ?s = _ |- _ => rewrite H in *
         | H : _ /\ _ |- _ => destruct H
         | H : exists _, _ |- _ => destruct H
         end.
  all: split; [done|].
  all: rewrite ?Ha, ?Hw, ?Hd.
  all: subst.
  all: rewrite ?seq_snoc.
  all: zbool.
  all: try congruence.
  all: repeat match goal with
         | H : calls g !! _ = Some _ |- _ => pose proof (lookup_lt_Some _ _ _ H); revert H
         | H : calls g !! _ = None |- _ => apply lookup_ge_None in H
         end; intros.
  all: do 3 eexists; split_and!; try reflexivity; intros; eauto;
       rewrite ?length_app; simpl; try lia.
  all: use_pool; simpl in *; eauto; try lia.
Qed.

Lemma omap_insert_back {A B} (f : A -> option B) (l : list A) k y x :
  x ∈ omap f (<[k := y]> l) -> x ∈ omap f l \/ f y = Some x.
Proof.
  rewrite !list_elem_of_omap. intros (a & Ha & Hf).
  apply list_elem_of_lookup in Ha as [j Hj].
  apply list_lookup_insert_Some in Hj as [(-> & <- & _)|(_ & Hj)]; [by right|].
  left. exists a. split; [by eapply list_elem_of_lookup_2|done].
Qed.

Lemma omap_insert_fwd {A B} (f : A -> option B) (l : list A) k y0 y x :
  l !! k = Some y0 -> x ∈ omap f l ->
  x ∈ omap f (<[k := y]> l) \/ f y0 = Some x.
Proof.
  rewrite !list_elem_of_omap. intros Hk (a & Ha & Hf).
  apply list_elem_of_lookup in Ha as [j Hj].
  destruct (decide (j = k)) as [->|Hne]; [right; by simplify_eq|].
  left. exists a. split; [|done].
  eapply list_elem_of_lookup_2. by rewrite list_lookup_insert_ne.
Qed.

Lemma omap_insert_new {A B} (f : A -> option B) (l : list A) k y0 y x :
  l !! k = Some y0 -> f y = Some x -> x ∈ omap f (<[k := y]> l).
Proof.
  intros Hk Hf. rewrite list_elem_of_omap. exists y. split; [|done].
  eapply list_elem_of_lookup_2. apply list_lookup_insert_eq.
  by eapply lookup_lt_Some.
Qed.

(** A closure to run after a move was to run before it, or is the one
    the loop has just built. *)
Lemma flying_backward c s s' x :
  step c s = Some s' -> x ∈ flying s' ->
  x ∈ flying s \/
  exists i v, pc s = PLoop i /\ calls g !! i = Some v /\ x = closure_of i v.
Proof.
  intros H. unfold flying. destruct c; step_cases H.
  all: rewrite ?omap_app; simpl; rewrite ?app_nil_r.
  all: rewrite ?elem_of_cons, ?elem_of_app, ?elem_of_cons, ?elem_of_nil.
  all: intros Hx.
  all: repeat match goal with
       | Hx : _ \/ _ |- _ => destruct Hx as [Hx|Hx]
       | Hx : _ ∈ omap held (<[_ := _]> _) |- _ =>
           apply omap_insert_back in Hx as [Hx|Hx]
       end; simplify_eq/=.
  all: try match goal with
       | Hb : buf _ = _ |- _ =>
           rewrite Hb in *; rewrite ?elem_of_cons, ?elem_of_nil in *
       end.
  all: naive_solver.
Qed.

Lemma closures_ok_init : closures_ok g init.
Proof. intros c. unfold flying; simpl. by rewrite elem_of_nil. Qed.

Lemma closures_ok_step c s s' :
  closures_ok g s -> step c s = Some s' -> closures_ok g s'.
Proof.
  intros Hs H x Hx.
  destruct (flying_backward _ _ _ _ H Hx) as [Hx'|(i & v & _ & Hv & ->)];
    [by apply Hs|].
  by exists v.
Qed.

(** A closure to run before a move is to run after it, unless the move
    ran it or the builtin gave up at its select. *)
Lemma flying_forward c s s' x :
  shape g s -> step c s = Some s' -> x ∈ flying s ->
  x ∈ flying s' \/
  (exists k gr, c = Go k /\ gos s !! k = Some gr /\ held gr = Some x) \/
  (exists i e, pc s = PSelect i x /\ cx s = Some e /\
               pc s' = PReturn (None, Some e)).
Proof.
  intros (_ & _ & k0 & m0 & d0 & _ & _ & _ & Hp & Hq) H.
  unfold flying, pc_shape, pool_shape in *. destruct c; step_cases H.
  all: rewrite ?omap_app; simpl; rewrite ?app_nil_r.
  all: rewrite ?elem_of_cons, ?elem_of_app, ?elem_of_cons, ?elem_of_nil.
  all: try match goal with
       | Hb : buf _ = _ |- _ =>
           rewrite Hb in *; rewrite ?elem_of_cons, ?elem_of_nil in *
       end.
  all: intros Hx.
  all: repeat match goal with
         | H : pc ?s = _ |- _ => rewrite H in *
         | H : _ /\ _ |- _ => destruct H
         end; zbool; subst; use_pool.
  all: repeat match goal with
       | Hx : _ \/ _ |- _ => destruct Hx as [Hx|Hx]
       | Hx : _ ∈ omap held (gos ?s), Hk : gos ?s !! ?k = Some _
         |- context [<[?k := ?y]> (gos ?s)] =>
           apply (omap_insert_fwd held _ _ _ y _ Hk) in Hx as [Hx|Hx]
       end; simplify_eq/=.
  all: try solve [naive_solver].
  all: try solve
         [ left; right; right; eapply omap_insert_new; eauto
         | left; right; eapply omap_insert_new; eauto
         | left; eapply omap_insert_new; eauto ].
Qed.


Lemma elem_of_insert_back {A} (l : list A) k y x :
  x ∈ <[k := y]> l -> x = y \/ x ∈ l.
Proof.
  intros Hx. apply list_elem_of_lookup in Hx as [j Hj].
  apply list_lookup_insert_Some in Hj as [(-> & <- & _)|(_ & Hj)]; [by left|].
  right. by eapply list_elem_of_lookup_2.
Qed.

Lemma pool_ok_init : pool_ok g init.
Proof.
  unfold pool_ok; simpl. split_and!.
  - case_match; repeat constructor.
  - done.
  - intros _ Hx. by apply elem_of_nil in Hx.
Qed.

Lemma pool_ok_step c s s' :
  shape g s -> pool_ok g s -> step c s = Some s' -> pool_ok g s'.
Proof.
  intros (_ & _ & k0 & m0 & d0 & _ & _ & _ & Hp & Hq) (Hk & Hc & He) H.
  unfold pool_ok, pc_shape, pool_shape in *.
  destruct (n g <=? 0) eqn:Hn.
  all: destruct c; step_cases H.
  all: repeat match goal with
         | H : pc ?s = _ |- _ => rewrite H in *
         | H : _ /\ _ |- _ => destruct H
         end; zbool; subst; use_pool.
  all: try match goal with
         | Hk : Forall _ (gos ?s), H0 : gos ?s !! _ = Some _ |- _ =>
             let Hf := fresh in
             pose proof (Forall_lookup_1 _ _ _ _ Hk H0) as Hf; simpl in Hf
         end; try done.
  all: split; [|split];
       [ try done; rewrite ?Forall_app; repeat split;
         try apply Forall_insert; try done; repeat constructor
       | intros q Hq'; simplify_eq/=; try done;
         try (specialize (Hc _ eq_refl)); eauto
       | intros Hn' Hx; try lia;
         rewrite ?elem_of_app, ?list_elem_of_singleton in Hx;
         try apply elem_of_insert_back in Hx;
         repeat match goal with
           | Hx : _ \/ _ |- _ => destruct Hx as [Hx|Hx]
           end; simplify_eq;
         try (destruct (He Hn' Hx) as (q & Hq1 & Hq2 & Hq3)); simplify_eq/=;
         try (specialize (Hc _ eq_refl)); simpl in *; eauto; try congruence ].
Qed.

Lemma held_flying s k gr x :
  gos s !! k = Some gr -> held gr = Some x -> x ∈ flying s.
Proof.
  intros Hk Hh. unfold flying. rewrite !elem_of_app. right; right.
  apply list_elem_of_omap. exists gr. split; [by eapply list_elem_of_lookup_2|done].
Qed.

Lemma exited_lookup (l : list Goroutine) k gr :
  forallb is_exit l = true -> l !! k = Some gr -> is_exit gr = true.
Proof.
  revert k. induction l as [|a l IH]; intros [|k] Hf Hk; simplify_eq/=;
    apply andb_true_iff in Hf as [Ha Hl]; eauto.
Qed.

(** Under a live context a held closure behaves as its recorded call. *)
Lemma run_held s k gr c :
  closures_ok g s -> cx s = None ->
  gos s !! k = Some gr -> held gr = Some c ->
  exists v, calls g !! c_i c = Some v /\ v ∈ calls g /\
    Call h (mkThread (Some (cx s))) (c_fn c) (c_args c) (c_kwargs c)
    = outcome Call h v.
Proof.
  intros Hcl Hcx Hk Hh.
  destruct (Hcl c (held_flying _ _ _ _ Hk Hh)) as (v & Hv & Hc).
  exists v. split; [done|]. split; [by eapply list_elem_of_lookup_2|].
  unfold outcome. rewrite Hcx. destruct c as [i f a kw].
  unfold closure_of in Hc. by simplify_eq/=.
Qed.

Lemma quiet_init :
  ctx g = None -> eg_err (group g) = None -> quiet init.
Proof.
  intros Hc He. unfold quiet; simpl. split_and!; try done.
  intros e Hx. by apply elem_of_nil in Hx.
Qed.

Lemma quiet_step c s s' :
  admits g -> succeed Call h g -> is_host c = false ->
  closures_ok g s -> quiet s -> step c s = Some s' -> quiet s'.
Proof.
  unfold admits. intros Hadm Hsuc Hc Hcl (He & Hx & Hpc) H. unfold quiet.
  destruct c as [b|k|d]; [| |done].
  - step_cases H;
      repeat match goal with
        | H : pc ?s = _ |- _ => rewrite H in *
        end; simpl in *; try congruence.
    all: split_and!; try done.
    all: intros e Hin; apply elem_of_app in Hin as [Hin|Hin];
      [by eapply Hx | by apply list_elem_of_singleton in Hin].
  - assert (cx s = None) as Hcx.
    { destruct (pc s) eqn:Hp; try done. destruct Hpc as [_ Hf].
      unfold step, step_go in H.
      destruct (gos s !! k) as [gr|] eqn:Hk; [|done].
      pose proof (exited_lookup _ _ _ Hf Hk). by destruct gr. }
    assert (forall r, pc s <> PReturn r) as Hnr.
    { intros r Hr. rewrite Hr in Hpc. destruct Hpc as [_ Hf].
      unfold step, step_go in H.
      destruct (gos s !! k) as [gr|] eqn:Hk; [|done].
      pose proof (exited_lookup _ _ _ Hf Hk). by destruct gr. }
    assert (forall c gr, gos s !! k = Some gr -> held gr = Some c ->
              snd (Call h (mkThread (Some (cx s))) (c_fn c) (c_args c)
                     (c_kwargs c)) = None) as Hrun.
    { intros c gr Hk Hh.
      destruct (run_held _ _ _ _ Hcl Hcx Hk Hh) as (v & _ & Hv & ->).
      by apply Hsuc. }
    step_cases H;
      try (exfalso; pose proof (Hrun _ _ eq_refl eq_refl) as Hr;
           simpl in Hr; congruence).
    all: split_and!; try done.
    all: try (intros e Hin; apply elem_of_insert_back in Hin as [Hin|Hin];
              [done | by eapply Hx]).
    all: by edestruct Hnr.
Qed.

(** The slots change only when a goroutine runs the closure it holds and
    the function returns without error. *)
Lemma elems_step c s s' :
  step c s = Some s' ->
  elems s' = elems s \/
  exists k gr x,
    c = Go k /\ gos s !! k = Some gr /\ held gr = Some x /\
    snd (Call h (mkThread (Some (cx s))) (c_fn x) (c_args x) (c_kwargs x)) = None /\
    elems s' =
      <[c_i x := fst (Call h (mkThread (Some (cx s))) (c_fn x) (c_args x)
                        (c_kwargs x))]> (elems s).
Proof.
  intros H. destruct c; step_cases H; auto.
  all: right; do 3 eexists; split_and!; try done; done.
Qed.

(** When the join lets the builtin through in a quiet run, nothing is
    left to run. *)
Lemma flying_join s :
  shape g s -> pool_ok g s -> quiet s ->
  pc s = PJoin -> forallb is_exit (gos s) = true -> flying s = [].
Proof.
  intros (_ & _ & k0 & m0 & d0 & _ & _ & _ & Hp & Hq) (_ & _ & Hex)
    (_ & Hne & _) Hpc Hall.
  unfold flying, pc_shape, pool_shape in *. rewrite Hpc in *. simpl.
  assert (omap held (gos s) = []) as ->.
  { apply elem_of_nil_inv. intros x Hx.
    apply list_elem_of_omap in Hx as (gr & Hgr & Hh).
    apply list_elem_of_lookup in Hgr as [k Hk].
    pose proof (exited_lookup _ _ _ Hall Hk). by destruct gr. }
  rewrite app_nil_r.
  destruct (queue s) as [q|] eqn:Hqs; [|done].
  destruct (n g <=? 0) eqn:Hn; [by destruct Hq|]. zbool.
  destruct Hq as (Hw & _ & _ & Hlen & Hz & _).
  destruct (gos s) as [|gr l] eqn:Hg.
  { simpl in Hlen. destruct Hp as (-> & _).
    destruct (length (calls g)) eqn:Hl; [specialize (Hz eq_refl); congruence|].
    lia. }
  destruct gr; try done. destruct e as [e|].
  { exfalso. apply (Hne e). left. }
  destruct Hex as (q' & Hq' & _ & Hb); [lia|left|]. by simplify_eq.
Qed.

Lemma results_lookup j v :
  calls g !! j = Some v -> results Call h g !! j = Some (result_of Call h v).
Proof. intros Hv. unfold results. by rewrite list_lookup_fmap, Hv. Qed.

(** Once the builtin has returned in a quiet run, nothing moves. *)
Lemma quiet_return_stuck c s r :
  quiet s -> pc s = PReturn r -> is_host c = false -> step c s = None.
Proof.
  intros (_ & _ & Hpc) Hr Hc. rewrite Hr in Hpc. destruct Hpc as [_ Hall].
  destruct c as [b|k|d]; [| |done]; simpl.
  - unfold step_main. by rewrite Hr.
  - unfold step_go. destruct (gos s !! k) as [gr|] eqn:Hk; [|done].
    pose proof (exited_lookup _ _ _ Hall Hk). by destruct gr.
Qed.

Lemma quiet_cx c s s' :
  quiet s -> is_host c = false -> step c s = Some s' -> cx s = None.
Proof.
  intros Hq Hc H. destruct (pc s) eqn:Hp;
    try (destruct Hq as (_ & _ & Hpc); by rewrite Hp in Hpc).
  by rewrite (quiet_return_stuck c s r) in H.
Qed.

Lemma filled_init : filled Call h g init.
Proof. unfold filled, progress_index; simpl. split; [intros; lia|done]. Qed.

(** The loop index moves on only by building the closure of the next
    recorded call. *)
Lemma progress_index_step c s s' j v :
  admits g -> is_host c = false -> shape g s -> quiet s ->
  step c s = Some s' -> calls g !! j = Some v ->
  (j < progress_index g s')%nat ->
  (j < progress_index g s)%nat \/ closure_of j v ∈ flying s'.
Proof.
  unfold admits. intros Hadm Hc (Hr & _) Hq H Hv Hj.
  pose proof (quiet_cx _ _ _ Hq Hc H) as Hcx.
  unfold progress_index, flying, pc_in_range in *.
  destruct c as [b|k|d]; [| |done]; step_cases H;
    repeat match goal with
      | H : pc ?s = _ |- _ => rewrite H in *
      | H : calls g !! _ = None |- _ => apply lookup_ge_None in H
      end; simpl in *; try congruence; try (left; lia).
  all: match goal with
       | Hj : (?j' < S ?i)%nat |- _ =>
           destruct (decide (j' < i)%nat); [left; lia|];
           assert (j' = i) by lia; simplify_eq; right
       end.
  all: rewrite ?omap_app; simpl;
       rewrite ?elem_of_cons, ?elem_of_app, ?list_elem_of_singleton;
       unfold closure_of; auto.
Qed.

(** A goroutine that holds a closure runs it when it moves. *)
Lemma go_run k s s' gr x :
  step (Go k) s = Some s' -> gos s !! k = Some gr -> held gr = Some x ->
  let r := Call h (mkThread (Some (cx s))) (c_fn x) (c_args x) (c_kwargs x) in
  trace s' = trace s ++ [EvCall (c_i x) r] /\
  elems s' = match snd r with
             | None => <[c_i x := fst r]> (elems s)
             | Some _ => elems s
             end.
Proof.
  intros H Hk Hh. simpl in H. unfold step_go in H. rewrite Hk in H.
  destruct gr; simplify_eq/=; unfold run_call, finish in H;
    repeat (case_match; simplify_eq/=); done.
Qed.

(** The ways the builtin returns: the limiter refused, the select took
    the context's case, or the join came back. *)
Lemma return_step c s s' r :
  step c s = Some s' -> pc s' = PReturn r ->
  pc s = PReturn r \/
  (exists i v e, pc s = PLoop i /\ calls g !! i = Some v /\
     Limiter_Wait (limiter g) (cx s) = Some e /\ r = (None, Some e)) \/
  (exists i x e, pc s = PSelect i x /\ cx s = Some e /\ r = (None, Some e)) \/
  (pc s = PJoin /\ forallb is_exit (gos s) = true /\
   r = match err s with
       | Some e => (None, Some e)
       | None => (Some (elems s), None)
       end).
Proof.
  intros H Hr. destruct c; step_cases H; try congruence; try (by left).
  all: try (right; left; by eauto 10).
  all: try (right; right; left; by eauto 10).
  all: right; right; right; split_and!; try done.
  all: match goal with He : err _ = _ |- _ => by rewrite He end.
Qed.

Lemma filled_step c s s' :
  admits g -> succeed Call h g -> is_host c = false ->
  shape g s -> closures_ok g s -> pool_ok g s -> quiet s ->
  filled Call h g s -> step c s = Some s' -> filled Call h g s'.
Proof.
  intros Hadm Hsuc Hc Hsh Hcl Hpool Hq (Hf & Hr) H.
  pose proof (quiet_cx _ _ _ Hq Hc H) as Hcx.
  pose proof Hsh as (_ & Hlen & _).
  assert (forall k gr x,
            c = Go k -> gos s !! k = Some gr -> held gr = Some x ->
            exists v, calls g !! c_i x = Some v /\
              elems s' = <[c_i x := result_of Call h v]> (elems s)) as Hran.
  { intros k gr x -> Hk Hh.
    destruct (run_held _ _ _ _ Hcl Hcx Hk Hh) as (v & Hv & Hin & Hcall).
    destruct (go_run _ _ _ _ _ H Hk Hh) as [_ He].
    rewrite Hcall, (Hsuc v Hin) in He. by exists v. }
  split.
  - intros j v Hv Hj.
    destruct (progress_index_step _ _ _ _ _ Hadm Hc Hsh Hq H Hv Hj)
      as [Hlt|Hnew]; [|by right].
    destruct (Hf j v Hv Hlt) as [Hdone|Hfly].
    + left. destruct (elems_step _ _ _ H)
        as [->|(k & gr & x & -> & Hk & Hh & _ & _)]; [done|].
      destruct (Hran _ _ _ eq_refl Hk Hh) as (v' & Hv' & ->).
      destruct (decide (c_i x = j)) as [<-|Hne].
      * assert (v' = v) as -> by congruence.
        apply list_lookup_insert_eq. rewrite Hlen. by eapply lookup_lt_Some.
      * by rewrite list_lookup_insert_ne.
    + destruct (flying_forward _ _ _ _ Hsh H Hfly)
        as [Hfly'|[(k & gr & -> & Hk & Hh)|(i & e & _ & He & _)]];
        [by right| |congruence].
      left. destruct (Hran _ _ _ eq_refl Hk Hh) as (v' & Hv' & ->).
      simpl in Hv'. assert (v' = v) as -> by congruence. simpl.
      apply list_lookup_insert_eq. rewrite Hlen. by eapply lookup_lt_Some.
  - destruct (pc s') as [| | |r] eqn:Hp'; try done.
    destruct (return_step _ _ _ _ H Hp')
      as [Hp|[(i & v & e & _ & _ & Hw & _)|[(i & x & e & _ & He & _)
         |(Hp & Hall & ->)]]].
    + by rewrite (quiet_return_stuck c s r) in H.
    + unfold admits in Hadm. congruence.
    + congruence.
    + pose proof (flying_join _ Hsh Hpool Hq Hp Hall) as Hnil.
      destruct Hq as (-> & _). f_equal. f_equal.
      apply list_eq. intros j.
      destruct (calls g !! j) as [v|] eqn:Hv.
      * rewrite (results_lookup _ _ Hv).
        destruct (Hf j v Hv) as [Hd|Hfly]; [|done|].
        { unfold progress_index. rewrite Hp. by eapply lookup_lt_Some. }
        rewrite Hnil in Hfly. by apply elem_of_nil in Hfly.
      * apply lookup_ge_None in Hv.
        rewrite (proj2 (lookup_ge_None _ _)) by lia.
        symmetry. apply lookup_ge_None. unfold results.
        by rewrite length_map.
Qed.

Lemma good_init :
  ctx g = None -> eg_err (group g) = None -> good Call h g init.
Proof.
  intros Hc He. split_and!.
  - apply shape_init.
  - apply closures_ok_init.
  - apply pool_ok_init.
  - by apply quiet_init.
  - apply filled_init.
Qed.

Lemma good_step c s s' :
  admits g -> succeed Call h g -> is_host c = false ->
  good Call h g s -> step c s = Some s' -> good Call h g s'.
Proof.
  intros Hadm Hsuc Hc (Hsh & Hcl & Hpool & Hq & Hf) H. split_and!.
  - by eapply shape_step.
  - by eapply closures_ok_step.
  - by eapply pool_ok_step.
  - by eapply quiet_step.
  - by eapply filled_step.
Qed.

Lemma good_exec sched s :
  admits g -> succeed Call h g -> ctx g = None -> eg_err (group g) = None ->
  no_host sched -> exec sched init = Some s -> good Call h g s.
Proof.
  intros Hadm Hsuc Hc He Hn H.
  eapply (exec_invariant_nohost (good Call h g)); eauto using good_init.
  intros c s1 s2 Hc1 Hg1 H1. by eapply good_step.
Qed.

Lemma not_all_exited (l : list Goroutine) :
  forallb is_exit l = false ->
  exists k gr, l !! k = Some gr /\ is_exit gr = false.
Proof.
  induction l as [|a l IH]; [done|]. simpl. intros Hf.
  apply andb_false_iff in Hf as [Ha|Hl].
  - by exists O, a.
  - destruct (IH Hl) as (k & gr & Hk & Hg). by exists (S k), gr.
Qed.

(** In a quiet run the program is never blocked before the builtin has
    returned. *)
Lemma good_progress s :
  good Call h g s -> (forall r, pc s <> PReturn r) ->
  exists c, is_host c = false /\ is_Some (step c s).
Proof.
  intros ((_ & _ & k0 & m0 & d0 & _ & _ & _ & Hp & Hq) & _ &
          (Hk & Hc & He) & (_ & Hne & Hcx) & _) Hnr.
  unfold pc_shape, pool_shape in *.
  destruct (pc s) as [i|i c| |r] eqn:Hpc; [| | |by edestruct Hnr].
  - exists (Main false). split; [done|]. simpl. unfold step_main. rewrite Hpc.
    repeat case_match; by eexists.
  - destruct Hp as (-> & _ & _ & v & Hv & ->).
    destruct (n g <=? 0) eqn:Hn; [by destruct Hk|]. zbool.
    destruct Hq as (Hw & _ & _ & Hlen & _ & Hqs).
    destruct Hqs as (q & Hqs & Hcap); [lia|]. specialize (Hc _ Hqs).
    destruct (send_ready s) eqn:Hsr.
    { exists (Main false). split; [done|]. simpl. unfold step_main.
      rewrite Hpc, Hsr, Hcx, Hqs. by eexists. }
    unfold send_ready in Hsr. rewrite Hqs, Hc in Hsr. simpl in Hsr. zbool.
    destruct (buf q) as [|c0 rest] eqn:Hb; [simpl in Hsr; lia|].
    destruct (gos s) as [|gr l] eqn:Hg; [simpl in Hlen; lia|].
    exists (Go 0). split; [done|]. simpl. unfold step_go. rewrite Hg. simpl.
    destruct gr as [c1| |c1|[e|]]; simpl.
    + by inversion Hk.
    + rewrite Hqs, Hb. by eexists.
    + unfold run_call. repeat case_match; by eexists.
    + exfalso. apply (Hne e). left.
    + destruct He as (q' & Hq' & Hcl & _); [lia|left|]. congruence.
  - destruct (forallb is_exit (gos s)) eqn:Hall.
    { exists (Main false). split; [done|]. simpl. unfold step_main.
      rewrite Hpc, Hall. destruct (err s); by eexists. }
    destruct (not_all_exited _ Hall) as (k & gr & Hgk & Hgr).
    exists (Go k). split; [done|]. simpl. unfold step_go. rewrite Hgk.
    destruct gr as [c1| |c1|e]; [| | |done].
    + unfold run_call, finish. repeat case_match; by eexists.
    + destruct Hp as (-> & _).
      destruct (n g <=? 0) eqn:Hn.
      { destruct Hk as [Hk _]. by pose proof (Forall_lookup_1 _ _ _ _ Hk Hgk). }
      zbool. destruct Hq as (Hw & _ & _ & Hlen & _ & Hqs).
      apply lookup_lt_Some in Hgk.
      destruct Hqs as (q & Hqs & Hcap); [lia|]. specialize (Hc _ Hqs).
      rewrite Hqs, Hc. repeat case_match; by eexists.
    + unfold run_call, finish. repeat case_match; by eexists.
Qed.

(** A quiet run can always be completed. *)
Lemma good_completes s :
  admits g -> succeed Call h g -> good Call h g s ->
  exists sched s' r,
    no_host sched /\ exec sched s = Some s' /\ pc s' = PReturn r.
Proof.
  intros Hadm Hsuc.
  remember (weight len s) as w eqn:Hw. revert s Hw.
  induction w as [w IH] using lt_wf_ind. intros s -> Hg.
  destruct (pc s) as [i|i c| |r] eqn:Hpc;
    [| | |by exists [], s, r; split_and!; [constructor|done|done]].
  all: destruct (good_progress s Hg) as (c' & Hc' & [s1 Hs1]);
    [intros r; congruence|].
  all: pose proof (weight_step _ _ _ Hc' (proj1 (proj1 Hg)) Hs1) as Hlt.
  all: destruct (IH _ Hlt s1 eq_refl (good_step _ _ _ Hadm Hsuc Hc' Hg Hs1))
         as (sched & s' & r & Hn & He & Hr).
  all: exists (c' :: sched), s', r; split_and!;
         [by constructor | by simpl; rewrite Hs1 | done].
Qed.

(** Once the builtin has returned, later moves (goroutines left behind,
    the host) neither change what it returned nor dispatch anything. *)
Lemma returned_step c s s' r :
  pc s = PReturn r -> step c s = Some s' ->
  pc s' = PReturn r /\ dispatched (trace s') = dispatched (trace s) /\
  admitted (trace s') = admitted (trace s).
Proof.
  intros Hr H. destruct c; step_cases H; trace_simpl; try congruence; done.
Qed.

Lemma returned_exec sched s s' r :
  pc s = PReturn r -> exec sched s = Some s' ->
  pc s' = PReturn r /\ dispatched (trace s') = dispatched (trace s) /\
  admitted (trace s') = admitted (trace s).
Proof.
  revert s. induction sched as [|c sched IH]; intros s Hr He.
  - by simplify_eq/=.
  - simpl in He. destruct (step c s) as [s1|] eqn:E; [|done].
    destruct (returned_step _ _ _ _ Hr E) as (Hr1 & Hd1 & Ha1).
    destruct (IH _ Hr1 He) as (? & ? & ?). split_and!; congruence.
Qed.

(** The counters of the trace along any run. *)
Lemma shape_counters s :
  shape g s ->
  exists m k d,
    limiter_waits (trace s) = seq 0 m /\ admitted (trace s) = seq 0 k /\
    dispatched (trace s) = seq 0 d /\
    (d <= k <= m)%nat /\ (m <= len)%nat.
Proof.
  intros (Hr & _ & k & m & d & Ha & Hw & Hd & Hp & _).
  exists m, k, d. split_and!; try done;
    unfold pc_shape, pc_in_range in *; destruct (pc s);
    repeat match goal with H : _ /\ _ |- _ => destruct H end; lia.
Qed.

(** A refusal of the limiter ends the builtin at once with that error. *)
Lemma limiter_refusal b s i e :
  pc s = PLoop i -> (i < len)%nat ->
  Limiter_Wait (limiter g) (cx s) = Some e ->
  exists s', step (Main b) s = Some s' /\ pc s' = PReturn (None, Some e) /\
             dispatched (trace s') = dispatched (trace s) /\
             admitted (trace s') = admitted (trace s).
Proof.
  intros Hp Hi Hw. apply lookup_lt_is_Some in Hi as [v Hv].
  simpl. unfold step_main. rewrite Hp, Hv, Hw.
  eexists. split; [done|]. simpl. trace_simpl. done.
Qed.

(** Moves only add to the trace. *)
Lemma trace_step c s s' :
  step c s = Some s' -> exists t, trace s' = trace s ++ t.
Proof.
  intros H. destruct c; step_cases H; rewrite <- ?app_assoc; eauto.
  all: by exists []; rewrite app_nil_r.
Qed.

Lemma admitted_step c s s' i :
  step c s = Some s' -> i ∈ admitted (trace s) -> i ∈ admitted (trace s').
Proof.
  intros H Hi. destruct (trace_step _ _ _ H) as [t ->].
  rewrite admitted_app, elem_of_app. by left.
Qed.

(** A closure to run after a move was to run before it, or has just been
    let through by the limiter. *)
Lemma flying_new_admitted c s s' x :
  step c s = Some s' -> x ∈ flying s' ->
  x ∈ flying s \/ c_i x ∈ admitted (trace s').
Proof.
  intros H. unfold flying. destruct c; step_cases H.
  all: rewrite ?omap_app; simpl; rewrite ?app_nil_r.
  all: rewrite ?elem_of_cons, ?elem_of_app, ?elem_of_cons, ?elem_of_nil.
  all: intros Hx.
  all: repeat match goal with
       | Hx : _ \/ _ |- _ => destruct Hx as [Hx|Hx]
       | Hx : _ ∈ omap held (<[_ := _]> _) |- _ =>
           apply omap_insert_back in Hx as [Hx|Hx]
       end; simplify_eq/=.
  all: try match goal with
       | Hb : buf _ = _ |- _ =>
           rewrite Hb in *; rewrite ?elem_of_cons, ?elem_of_nil in *
       end.
  all: try solve [naive_solver].
  all: right; trace_simpl;
       rewrite ?elem_of_app, ?elem_of_cons, ?list_elem_of_singleton; auto.
Qed.

Lemma called_ok_init : called_ok Call h g init.
Proof.
  split; simpl.
  - intros x Hx. unfold flying in Hx; simpl in Hx. by apply elem_of_nil in Hx.
  - intros i r Hi. by apply elem_of_nil in Hi.
Qed.

Lemma called_ok_step c s s' :
  closures_ok g s -> called_ok Call h g s -> step c s = Some s' ->
  called_ok Call h g s'.
Proof.
  intros Hcl (Hfl & Hin) H. split.
  - intros x Hx.
    destruct (flying_new_admitted _ _ _ _ H Hx) as [Hx'|Hx']; [|done].
    eapply admitted_step; eauto.
  - intros i r Hi.
    assert ((i, r) ∈ invoked (trace s) \/
            exists k gr x, gos s !! k = Some gr /\ held gr = Some x /\
              i = c_i x /\
              r = Call h (mkThread (Some (cx s))) (c_fn x) (c_args x) (c_kwargs x))
      as [Hold|(k & gr & x & Hk & Hh & -> & ->)].
    { destruct c; step_cases H; trace_simpl; try (by left);
        rewrite ?elem_of_app, ?list_elem_of_singleton in Hi;
        destruct Hi as [Hi|Hi]; try (by left); simplify_eq;
        right; do 3 eexists; split_and!; try done; done. }
    + destruct (Hin _ _ Hold) as [Ha Hv]. split; [|done].
      eapply admitted_step; eauto.
    + pose proof (held_flying _ _ _ _ Hk Hh) as Hx.
      split; [eapply admitted_step; eauto|].
      destruct (Hcl _ Hx) as (v & Hv & Hc). exists v, (mkThread (Some (cx s))).
      split; [done|]. destruct x as [i f a kw].
      unfold closure_of in Hc. by simplify_eq/=.
Qed.

Lemma head_app_nonempty {A} (l1 l2 : list A) x :
  head l1 = Some x -> head (l1 ++ l2) = Some x.
Proof. by destruct l1. Qed.

Lemma errs_ok_init : eg_err (group g) = None -> errs_ok init.
Proof. intros He. unfold errs_ok; simpl. by rewrite He. Qed.

Lemma errs_ok_step c s s' :
  errs_ok s -> step c s = Some s' -> errs_ok s'.
Proof.
  unfold errs_ok, first_error. intros (He & Hc & Hr) H.
  destruct c; step_cases H;
    repeat match goal with
      | H : (?r).2 = _ |- _ => destruct r eqn:?; simpl in H; simplify_eq
      end; trace_simpl.
  all: repeat match goal with
         | H : pc ?s = _ |- _ => rewrite H in *
         end.
  all: try match goal with
         | Hk : gos ?s !! _ = Some _, Hr : _ \/ _ |- _ =>
             destruct Hr as [(el & -> & ? & Hall & ?)|Hr];
             [ by pose proof (exited_lookup _ _ _ Hall Hk) |]
         end.
  all: destruct (task_errors (trace s)) eqn:?; simplify_eq/=.
  all: split_and!; try done; try (intros; by destruct (cx s)).
  all: rewrite ?elem_of_app, ?list_elem_of_singleton.
  all: try solve [naive_solver].
  all: try (setoid_rewrite elem_of_app; setoid_rewrite list_elem_of_singleton;
            naive_solver).
Qed.

(** A goroutine that holds a closure can always make its move: nothing
    stops a call that has been handed over. *)
Lemma held_enabled s k gr x :
  gos s !! k = Some gr -> held gr = Some x -> is_Some (step (Go k) s).
Proof.
  intros Hk Hh. simpl. unfold step_go, run_call. rewrite Hk.
  destruct gr; simplify_eq/=; repeat case_match; by eexists.
Qed.

(** The moves of the others leave it as it is. *)
Lemma held_untouched c s s' k gr :
  step c s = Some s' -> c <> Go k -> gos s !! k = Some gr ->
  gos s' !! k = Some gr.
Proof.
  intros H Hc Hk. destruct c as [b|k'|d]; step_cases H;
    try done; try (by apply lookup_app_l_Some).
  all: rewrite list_lookup_insert_ne; [done|congruence].
Qed.

(** After a failure the limiter lets nobody through. *)
Lemma failed_refuses s :
  errs_ok s -> err s <> None ->
  exists e, Limiter_Wait (limiter g) (cx s) = Some e.
Proof.
  intros (_ & Hc & _) He. specialize (Hc He). unfold Limiter_Wait.
  destruct (_ && _); [by eexists|]. destruct (cx s); [by eexists|done].
Qed.

(** *** Every closure is run at most once *)

Lemma held_split (l : list Goroutine) k gr :
  l !! k = Some gr ->
  exists R, omap held l ≡ₚ option_list (held gr) ++ R /\
            forall gr', omap held (<[k := gr']> l) ≡ₚ option_list (held gr') ++ R.
Proof.
  intros Hk. exists (omap held (take k l) ++ omap held (drop (S k) l)).
  assert (k < length l)%nat by (by eapply lookup_lt_Some).
  split.
  - rewrite <- (take_drop_middle l k gr Hk) at 1. rewrite omap_app. simpl.
    destruct (held gr); simpl; solve_Permutation.
  - intros gr'. rewrite insert_take_drop by done. rewrite omap_app. simpl.
    destruct (held gr'); simpl; solve_Permutation.
Qed.

(** What a move does to the closures to run: it leaves them, or drops
    the one at the select when the builtin gives up; or it runs one; or
    the loop builds one. *)
Lemma flying_moves c s s' :
  shape g s -> step c s = Some s' ->
  (flying s' ⊆+ flying s /\ invoked (trace s') = invoked (trace s) /\
   elems s' = elems s /\
   ((flying s' ≡ₚ flying s /\ progress_index g s' = progress_index g s) \/
    exists e, pc s' = PReturn (None, e))) \/
  (exists x r,
     flying s ≡ₚ x :: flying s' /\
     invoked (trace s') = invoked (trace s) ++ [(c_i x, r)] /\
     elems s' = match snd r with
                | None => <[c_i x := fst r]> (elems s)
                | Some _ => elems s
                end /\
     pc s' = pc s) \/
  (exists i x,
     pc s = PLoop i /\ c_i x = i /\ flying s' ≡ₚ x :: flying s /\
     invoked (trace s') = invoked (trace s) /\ elems s' = elems s /\
     progress_index g s' = S i).
Proof.
  intros (Hr & _ & k0 & m0 & d0 & _ & _ & _ & Hp & Hq) H.
  unfold flying, progress_index, pc_shape, pool_shape, pc_in_range in *.
  destruct c as [b|k|d]; step_cases H.
  all: trace_simpl.
  all: repeat match goal with
         | H : pc ?s = _ |- _ => rewrite H in *
         | H : _ /\ _ |- _ => destruct H
         | H : calls g !! _ = None |- _ => apply lookup_ge_None in H
         end; zbool; subst; use_pool.
  all: try match goal with
       | Hk : gos _ !! _ = Some _ |- _ =>
           destruct (held_split _ _ _ Hk) as (R & HR1 & HR2)
       end.
  all: rewrite ?omap_app; simpl; rewrite ?app_nil_r.
  all: try match goal with
       | Hb : buf _ = _ |- _ => rewrite Hb in *
       end.
  all: first
    [ left; split_and!; [|done|done|];
      [ try (rewrite HR1); try (rewrite !HR2); simpl; solve_submseteq
      | first [ right; by eexists
              | left; split; [|lia];
                try (rewrite HR1); try (rewrite !HR2); simpl;
                solve_Permutation ] ]
    | right; left;
      match goal with
      | Hk : gos _ !! _ = Some (GCall ?c) |- _ => exists c
      | Hk : gos _ !! _ = Some (GWorkerCall ?c) |- _ => exists c
      end;
      eexists; split_and!;
        [rewrite HR1; rewrite !HR2; simpl; solve_Permutation
        |reflexivity
        |simpl; try match goal with Hr : snd _ = _ |- _ => rewrite Hr end;
         reflexivity
        |reflexivity]
    | right; right;
      match goal with
      | |- context [mkClosure ?i ?f ?a ?kw] =>
          exists i, (mkClosure i f a kw); split_and!;
            [reflexivity|reflexivity|simpl; solve_Permutation|done|done|done]
      end
    ].
Qed.

Lemma progress_index_le s : pc_in_range g s -> (progress_index g s <= len)%nat.
Proof. unfold pc_in_range, progress_index. destruct (pc s); lia. Qed.

Lemma once_init : once g init.
Proof.
  split; [by apply NoDup_nil|].
  split; intros ?; unfold ledger; simpl;
    [by rewrite elem_of_nil|intros ?; by rewrite elem_of_nil].
Qed.

Lemma once_step c s s' :
  shape g s -> once g s -> step c s = Some s' -> once g s'.
Proof.
  intros Hsh (Hnd & Hlt & Hel) H.
  pose proof Hsh as (Hr & Hlen & _).
  pose proof (progress_index_le _ Hr) as Hle.
  destruct (flying_moves _ _ _ Hsh H)
    as [(Hsub & Hinv & Helems & Hpi)|[(x & r & Hperm & Hinv & Helems & Hpc)
       |(i & x & Hpc & Hx & Hperm & Hinv & Helems & Hpi)]].
  - assert (ledger s' ⊆+ ledger s) as Hl.
    { unfold ledger. rewrite Hinv. apply submseteq_app; [|done].
      by apply fmap_submseteq. }
    split_and!.
    + apply submseteq_Permutation in Hl as [k Hk]. rewrite Hk in Hnd.
      by apply NoDup_app in Hnd as (? & _).
    + intros j Hj. pose proof (Hlt j (elem_of_submseteq _ _ _ Hj Hl)).
      destruct Hpi as [[_ ->]|[e He]]; [done|].
      unfold progress_index. rewrite He. lia.
    + rewrite Hinv, Helems. done.
  - assert (ledger s' ≡ₚ ledger s) as Hl.
    { unfold ledger. rewrite Hinv, Hperm, fmap_app. simpl. solve_Permutation. }
    assert (c_i x ∈ ledger s) as Hx.
    { unfold ledger. rewrite Hperm. set_solver. }
    assert (progress_index g s' = progress_index g s) as Hpi
      by (unfold progress_index; by rewrite Hpc).
    split_and!.
    + by rewrite Hl.
    + intros j Hj. rewrite Hpi. apply Hlt. by rewrite <- Hl.
    + intros i r0. rewrite Hinv, elem_of_app, list_elem_of_singleton.
      intros [Hi|Hi] Hr0.
      * assert (i <> c_i x) as Hne.
        { intros ->. unfold ledger in Hnd. apply NoDup_app in Hnd as (_ & Hd & _).
          eapply Hd.
          - rewrite Hperm. simpl. apply elem_of_cons; by left.
          - apply list_elem_of_fmap. exists (c_i x, r0). by split. }
        rewrite Helems. destruct (snd r); [by apply Hel|].
        rewrite list_lookup_insert_ne by done. by apply Hel.
      * simplify_eq. rewrite Helems, Hr0.
        apply list_lookup_insert_eq. rewrite Hlen.
        pose proof (Hlt _ Hx). lia.
  - assert (ledger s' ≡ₚ i :: ledger s) as Hl.
    { unfold ledger. rewrite Hinv, Hperm. simpl. by rewrite Hx. }
    assert (progress_index g s = i) as Hi
      by (unfold progress_index; by rewrite Hpc).
    split_and!.
    + rewrite Hl. apply NoDup_cons. split; [|done].
      intros Hin. apply Hlt in Hin. lia.
    + intros j. rewrite Hl, Hpi, elem_of_cons. intros [->|Hj]; [lia|].
      apply Hlt in Hj. lia.
    + rewrite Hinv, Helems. done.
Qed.

(** A tuple is returned by the join, once every goroutine has ended, and
    is the slice of slots; nothing moves but the host afterwards. *)
Lemma tuple_return c s s' el x :
  step c s = Some s' -> pc s' = PReturn (Some el, x) ->
  (pc s = PReturn (Some el, x) ->
   el = elems s /\ forallb is_exit (gos s) = true /\ err s = None) ->
  el = elems s' /\ forallb is_exit (gos s') = true /\ err s' = None.
Proof.
  intros H Hp Hold. destruct c as [b|k|d]; step_cases H;
    try (by apply Hold).
  all: try match goal with
       | Hk : gos _ !! _ = Some _, Hpc : pc _ = PReturn _ |- _ =>
           destruct (Hold Hpc) as (_ & Hex & _);
           by pose proof (exited_lookup _ _ _ Hex Hk)
       end.
  done.
Qed.

Lemma complete_init : complete g init.
Proof. unfold complete, progress_index; simpl. intros j Hj. lia. Qed.

Lemma complete_step c s s' :
  shape g s -> complete g s -> step c s = Some s' -> complete g s'.
Proof.
  intros Hsh Hc H.
  assert ((forall e, pc s' <> PReturn (None, e)) ->
          forall j, (j < progress_index g s')%nat -> j ∈ ledger s') as Hall.
  { intros Hne.
    assert (forall j, (j < progress_index g s)%nat -> j ∈ ledger s) as Hold.
    { unfold complete in Hc. destruct (pc s) as [| | |[[el|] x]] eqn:Hp;
        [done|done|done|by destruct Hc as (_ & _ & _ & ?)|].
      destruct (returned_step _ _ _ _ Hp H) as (Hp' & _).
      by destruct (Hne x). }
    intros j Hj.
    destruct (flying_moves _ _ _ Hsh H)
      as [(Hsub & Hinv & Helems & Hpi)|[(x & r & Hperm & Hinv & Helems & Hpc)
         |(i & x & Hpc & Hx & Hperm & Hinv & Helems & Hpi)]].
    - destruct Hpi as [[Hperm Hpi]|[e He]]; [|by destruct (Hne e)].
      rewrite Hpi in Hj. apply Hold in Hj.
      unfold ledger in *. by rewrite Hinv, Hperm.
    - assert (progress_index g s' = progress_index g s) as Hpi
        by (unfold progress_index; by rewrite Hpc).
      rewrite Hpi in Hj. apply Hold in Hj. unfold ledger in *.
      rewrite Hperm in Hj. rewrite Hinv, fmap_app. simpl in *.
      set_solver.
    - assert (progress_index g s = i) as Hi
        by (unfold progress_index; by rewrite Hpc).
      unfold ledger in *. rewrite Hinv, Hperm. simpl. rewrite Hx.
      destruct (decide (j = i)) as [->|Hne']; [set_solver|].
      assert (j < progress_index g s)%nat as Hj' by lia.
      apply Hold in Hj'. set_solver. }
  unfold complete. destruct (pc s') as [| | |[[el|] x]] eqn:Hp'; try done;
    try (apply Hall; congruence).
  assert (el = elems s' /\ forallb is_exit (gos s') = true /\ err s' = None)
    as (? & ? & ?).
  { eapply tuple_return; eauto. intros Hp. unfold complete in Hc.
    rewrite Hp in Hc. by destruct Hc as (? & ? & ? & _). }
  split_and!; [done|done|done|]. apply Hall. congruence.
Qed.

Lemma failed_known_init : failed_known init.
Proof. split; [intros e; simpl; by rewrite elem_of_nil|done]. Qed.

Lemma failed_known_step c s s' :
  failed_known s -> step c s = Some s' -> failed_known s'.
Proof.
  intros [Hs Ht] H. unfold failed_known. split.
  - intros e.
    destruct c as [b|k|d]; step_cases H;
      rewrite ?elem_of_app, ?list_elem_of_singleton; intros He;
      repeat match goal with
        | He : _ \/ _ |- _ => destruct He as [He|He]
        | He : _ ∈ <[_ := _]> _ |- _ => apply elem_of_insert_back in He as [He|He]
        end; simplify_eq; try done;
      try (by eapply Hs);
      try match goal with
          | He : GExit (Some _) ∈ gos _, Herr : err _ = None |- _ =>
              by destruct (Hs _ He)
          end.
  - destruct c as [b|k|d]; step_cases H; trace_simpl; try done;
      intros He; try (by rewrite (Ht He));
      repeat match goal with
        | |- context [Call ?a ?b ?c ?d ?e] =>
            destruct (Call a b c d e) as [? [?|]] eqn:?; simpl in *
        end; simplify_eq; trace_simpl; try (by rewrite (Ht He)); try done.
Qed.

Lemma buf_bounded_init : buf_bounded init.
Proof. by intros q. Qed.

Lemma buf_bounded_step c s s' :
  buf_bounded s -> step c s = Some s' -> buf_bounded s'.
Proof.
  intros Hs H q. unfold buf_bounded, send_ready in *.
  destruct c as [b|k|d]; step_cases H; intros Hq; simplify_eq/=; zbool;
    try (by apply Hs);
    unfold send_ready in *;
    repeat match goal with
      | Hs : forall q, Some ?q0 = Some q -> _ |- _ => specialize (Hs q0 eq_refl)
      | Hb : buf _ = _ |- _ => rewrite Hb in *
      | Hq : queue ?s = Some _, Hr : context [queue ?s] |- _ => rewrite Hq in Hr
      | Ha : _ && _ = true |- _ => apply andb_prop in Ha as [? ?]
      end; simpl in *; zbool; rewrite ?length_app; simpl; try lia.
Qed.

Lemma sound_init : sound g init.
Proof.
  split_and!; auto using shape_init, pool_ok_init, once_init, complete_init,
    failed_known_init, buf_bounded_init.
Qed.

Lemma sound_step c s s' : sound g s -> step c s = Some s' -> sound g s'.
Proof.
  intros (Hsh & Hpool & Ho & Hc & Hf & Hb) H.
  split_and!; eauto using shape_step, pool_ok_step, once_step, complete_step,
    failed_known_step, buf_bounded_step.
Qed.

Lemma sound_exec sched s : exec sched init = Some s -> sound g s.
Proof.
  intros H. eapply (exec_invariant (sound g)); eauto using sound_init.
  intros c s1 s2 ? ?. by eapply sound_step.
Qed.

Lemma exited_held (l : list Goroutine) :
  forallb is_exit l = true -> omap held l = [].
Proof.
  intros Hall. apply elem_of_nil_inv. intros x Hx.
  apply list_elem_of_omap in Hx as (gr & Hgr & Hh).
  apply list_elem_of_lookup in Hgr as [k Hk].
  pose proof (exited_lookup _ _ _ Hall Hk). by destruct gr.
Qed.

(** When the builtin returns a tuple no closure is left to run. *)
Lemma tuple_flying s el x :
  sound g s -> pc s = PReturn (Some el, x) -> flying s = [].
Proof.
  intros ((_ & _ & k0 & m0 & d0 & _ & _ & _ & Hp & Hq) & (_ & _ & Hex) & _
          & Hc & [Hne _] & _) Hpc.
  unfold complete in Hc. rewrite Hpc in Hc. destruct Hc as (_ & Hall & Herr & _).
  unfold flying, pc_shape, pool_shape in *. rewrite Hpc in *. simpl.
  rewrite (exited_held _ Hall), app_nil_r.
  destruct (queue s) as [q|] eqn:Hqs; [|done].
  destruct (n g <=? 0) eqn:Hn; [by destruct Hq|]. zbool.
  destruct Hq as (Hw & _ & _ & Hlen & Hz & _).
  destruct (gos s) as [|gr l] eqn:Hg.
  { simpl in Hlen. destruct k0; [specialize (Hz eq_refl); congruence|]. lia. }
  destruct gr; try done. destruct e as [e|].
  { exfalso. apply (Hne e); [left|done]. }
  destruct Hex as (q' & Hq' & _ & Hb); [lia|left|]. by simplify_eq.
Qed.

Lemma task_errors_nil t i r :
  task_errors t = [] -> (i, r) ∈ invoked t -> snd r = None.
Proof.
  induction t as [|e t IH]; simpl; [by rewrite elem_of_nil|].
  destruct e as [| | | | |j [v [x|]]| | |]; simpl; try done.
  rewrite elem_of_cons. intros Ht [?|?]; simplify_eq; auto.
Qed.

(** *** wait never blocks for good *)

(** As long as the builtin has not returned, one of its threads can
    move, whatever has failed or been cancelled. *)
Lemma sound_progress s :
  sound g s -> errs_ok s -> (forall r, pc s <> PReturn r) ->
  exists c, is_host c = false /\ is_Some (step c s).
Proof.
  intros ((_ & _ & k0 & m0 & d0 & _ & _ & _ & Hp & Hq) & (Hk & Hc & He) & _ & _
          & [Hne _] & _) (_ & Herr & _) Hnr.
  unfold pc_shape, pool_shape in *.
  destruct (pc s) as [i|i c| |r] eqn:Hpc; [| | |by edestruct Hnr].
  - exists (Main false). split; [done|]. simpl. unfold step_main. rewrite Hpc.
    repeat case_match; by eexists.
  - destruct Hp as (-> & _ & _ & v & Hv & ->).
    destruct (n g <=? 0) eqn:Hn; [by destruct Hk|]. zbool.
    destruct Hq as (Hw & _ & _ & Hlen & _ & Hqs).
    destruct Hqs as (q & Hqs & Hcap); [lia|]. specialize (Hc _ Hqs).
    destruct (cx s) as [e|] eqn:Hcx.
    { exists (Main true). split; [done|]. simpl. unfold step_main.
      rewrite Hpc, Hcx, Hqs. destruct (send_ready s); by eexists. }
    destruct (send_ready s) eqn:Hsr.
    { exists (Main false). split; [done|]. simpl. unfold step_main.
      rewrite Hpc, Hsr, Hcx, Hqs. by eexists. }
    unfold send_ready in Hsr. rewrite Hqs, Hc in Hsr. simpl in Hsr. zbool.
    destruct (buf q) as [|c0 rest] eqn:Hb; [simpl in Hsr; lia|].
    destruct (gos s) as [|gr l] eqn:Hg; [simpl in Hlen; lia|].
    exists (Go 0). split; [done|]. simpl. unfold step_go. rewrite Hg. simpl.
    destruct gr as [c1| |c1|[e|]]; simpl.
    + by inversion Hk.
    + rewrite Hqs, Hb. by eexists.
    + unfold run_call. repeat case_match; by eexists.
    + exfalso. destruct (err s) eqn:Ee; [by apply Herr|].
      apply (Hne e); [left|done].
    + destruct He as (q' & Hq' & Hcl & _); [lia|left|]. congruence.
  - destruct (forallb is_exit (gos s)) eqn:Hall.
    { exists (Main false). split; [done|]. simpl. unfold step_main.
      rewrite Hpc, Hall. destruct (err s); by eexists. }
    destruct (not_all_exited _ Hall) as (k & gr & Hgk & Hgr).
    exists (Go k). split; [done|]. simpl. unfold step_go. rewrite Hgk.
    destruct gr as [c1| |c1|e]; [| | |done].
    + unfold run_call, finish. repeat case_match; by eexists.
    + destruct Hp as (-> & _).
      destruct (n g <=? 0) eqn:Hn.
      { destruct Hk as [Hk _]. by pose proof (Forall_lookup_1 _ _ _ _ Hk Hgk). }
      zbool. destruct Hq as (Hw & _ & _ & Hlen & _ & Hqs).
      apply lookup_lt_Some in Hgk.
      destruct Hqs as (q & Hqs & Hcap); [lia|]. specialize (Hc _ Hqs).
      rewrite Hqs, Hc. repeat case_match; by eexists.
    + unfold run_call, finish. repeat case_match; by eexists.
Qed.

(** From every such state the builtin can be run to its return without
    a further move of the host. *)
Lemma sound_completes s :
  sound g s -> errs_ok s ->
  exists sched s' r,
    no_host sched /\ exec sched s = Some s' /\ pc s' = PReturn r.
Proof.
  remember (weight len s) as w eqn:Hw. revert s Hw.
  induction w as [w IH] using lt_wf_ind. intros s -> Hg He.
  destruct (pc s) as [i|i c| |r] eqn:Hpc;
    [| | |by exists [], s, r; split_and!; [constructor|done|done]].
  all: destruct (sound_progress s Hg He) as (c' & Hc' & [s1 Hs1]);
    [intros r; congruence|].
  all: pose proof (weight_step _ _ _ Hc' (proj1 (proj1 Hg)) Hs1) as Hlt.
  all: destruct (IH _ Hlt s1 eq_refl (sound_step _ _ _ Hg Hs1)
                   (errs_ok_step _ _ _ He Hs1))
         as (sched & s' & r & Hn & Hex & Hr).
  all: exists (c' :: sched), s', r; split_and!;
         [by constructor | by simpl; rewrite Hs1 | done].
Qed.

End Runs.

(* ===================================================================== *)
(** * The builtins *)

Lemma group_wait_unfrozen Call w g sched :
  frozen g = false ->
  group_wait Call w g sched =
    match exec Call (heap w) (Group_Freeze g) sched (wait_init (Group_Freeze g)) with
    | Some s =>
        (mkWorld (heap w) (log w ++ trace s),
         mkGroup (cx s) (mkErrGroup (err s)) (limiter g) true (n g) (calls g),
         match pc s with PReturn r => Some r | _ => None end)
    | None => (w, Group_Freeze g, None)
    end.
Proof. intros Hf. unfold group_wait. by rewrite Hf. Qed.

(** What [wait] returned under a schedule, read off the machine. *)
Lemma group_wait_returns Call w g sched r :
  frozen g = false ->
  (group_wait Call w g sched).2 = Some r <->
  exists s, exec Call (heap w) (Group_Freeze g) sched (wait_init (Group_Freeze g)) = Some s
            /\ pc s = PReturn r.
Proof.
  intros Hf. rewrite group_wait_unfrozen by done.
  destruct (exec _ _ _ _ _) as [s|]; simpl.
  - split.
    + intros Hr. exists s. split; [done|]. destruct (pc s); by simplify_eq.
    + intros (s' & Hs' & Hr). simplify_eq. by rewrite Hr.
  - split; [done|]. by intros (s' & Hs' & _).
Qed.

(** C1. When every recorded function returns without error, the limiter
    admits and nobody cancels the context, [wait] returns the tuple whose
    i-th element is what the i-th recorded call returned, under every
    schedule of the goroutines, that is whatever the order in which the
    calls complete; such a run exists, no run is longer than
    [6 * len + 2] moves, and a run that has not yet returned can always
    make a further move. *)
Theorem wait_results_in_registration_order Call w g :
  frozen g = false -> ctx g = None -> eg_err (group g) = None ->
  admits g -> succeed Call (heap w) g ->
  (forall sched r,
     no_host sched -> (group_wait Call w g sched).2 = Some r ->
     r = (Some (results Call (heap w) g), None)) /\
  (exists sched,
     no_host sched /\
     (group_wait Call w g sched).2 = Some (Some (results Call (heap w) g), None)) /\
  (forall sched s,
     no_host sched ->
     exec Call (heap w) (Group_Freeze g) sched (wait_init (Group_Freeze g)) = Some s ->
     (length sched <= 6 * length (calls g) + 2)%nat /\
     ((forall r, pc s <> PReturn r) ->
      exists c, is_host c = false /\
                is_Some (step Call (heap w) (Group_Freeze g) c s))).
Proof.
  intros Hf Hc He Hadm Hsuc.
  set (g' := Group_Freeze g).
  assert (forall sched s, no_host sched ->
            exec Call (heap w) g' sched (wait_init g') = Some s ->
            good Call (heap w) g' s) as Hgood.
  { intros sched s Hn Hs. by eapply (good_exec Call (heap w) g'). }
  split_and!.
  - intros sched r Hn Hr.
    apply group_wait_returns in Hr as (s & Hs & Hp); [|done].
    destruct (Hgood _ _ Hn Hs) as (_ & _ & _ & _ & _ & Hret).
    by rewrite Hp in Hret.
  - destruct (good_completes Call (heap w) g' (wait_init g'))
      as (sched & s & r & Hn & Hs & Hp); [done|done|by apply good_init|].
    exists sched. split; [done|].
    apply group_wait_returns; [done|]. exists s. split; [done|].
    destruct (Hgood _ _ Hn Hs) as (_ & _ & _ & _ & _ & Hret).
    rewrite Hp in Hret. by rewrite Hp, Hret.
  - intros sched s Hn Hs. split.
    + pose proof (exec_weight Call (heap w) g' sched _ _
                    (pc_in_range_init g') Hs) as Hw.
      unfold program_moves in Hw.
      assert (filter (fun c => is_host c = false) sched = sched) as Hfl.
      { clear -Hn. induction Hn as [|c l Hc Hl IH]; [done|].
        rewrite filter_cons, decide_True by done. by rewrite IH. }
      rewrite Hfl in Hw. unfold weight in Hw at 2. simpl in Hw. lia.
    + intros Hnr. by apply good_progress; [apply (Hgood sched)|].
Qed.

Lemma admits_cancelled g e :
  admits g -> Limiter_Wait (limiter g) (Some e) = Some e.
Proof.
  unfold admits, Limiter_Wait. by destruct (_ && _).
Qed.

(** C6. Along every run of [wait] the limiter is asked for the tasks
    0, 1, 2, ... in registration order, the tasks let through and the
    tasks dispatched are initial segments of that order; and when the
    limiter's wait fails for task [i] (as it does with the context's
    error once the context is cancelled), the builtin returns that error
    at its next move and no further task is ever dispatched. *)
Theorem wait_admits_in_order Call w g sched s :
  frozen g = false ->
  exec Call (heap w) (Group_Freeze g) sched (wait_init (Group_Freeze g)) = Some s ->
  (exists m k d,
     limiter_waits (trace s) = seq 0 m /\ admitted (trace s) = seq 0 k /\
     dispatched (trace s) = seq 0 d /\
     (d <= k <= m)%nat /\ (m <= length (calls g))%nat) /\
  (forall i e b,
     pc s = PLoop i -> (i < length (calls g))%nat ->
     Limiter_Wait (limiter g) (cx s) = Some e ->
     exists s',
       step Call (heap w) (Group_Freeze g) (Main b) s = Some s' /\
       pc s' = PReturn (None, Some e) /\
       forall sched' s'',
         exec Call (heap w) (Group_Freeze g) sched' s' = Some s'' ->
         (group_wait Call w g (sched ++ Main b :: sched')).2
           = Some (None, Some e) /\
         dispatched (trace s'') = dispatched (trace s) /\
         admitted (trace s'') = admitted (trace s)) /\
  (forall e, admits g -> cx s = Some e ->
             Limiter_Wait (limiter g) (cx s) = Some e).
Proof.
  intros Hf Hs. set (g' := Group_Freeze g) in *. split_and!.
  - apply (shape_counters g' s).
    eapply (exec_invariant Call (heap w) g' (shape g')); eauto using shape_init.
    intros c s1 s2. apply shape_step.
  - intros i e b Hp Hi Hw.
    destruct (limiter_refusal Call (heap w) g' b s i e Hp Hi Hw)
      as (s' & Hs' & Hp' & Hd' & Ha').
    exists s'. split_and!; [done..|].
    intros sched' s'' Hs''.
    destruct (returned_exec Call (heap w) g' _ _ _ _ Hp' Hs'') as (Hp'' & Hd'' & Ha'').
    split_and!; [|congruence..].
    apply group_wait_returns; [done|]. exists s''. split; [|done].
    rewrite exec_app. fold g'. rewrite Hs.
    change (exec Call (heap w) g' (Main b :: sched') s)
      with (match step Call (heap w) g' (Main b) s with
            | Some s1 => exec Call (heap w) g' sched' s1
            | None => None
            end).
    by rewrite Hs'.
  - intros e Hadm Hc. rewrite Hc. by apply admits_cancelled.
Qed.

Lemma errs_ok_exec Call w g sched s :
  eg_err (group g) = None ->
  exec Call (heap w) (Group_Freeze g) sched (wait_init (Group_Freeze g)) = Some s ->
  errs_ok s.
Proof.
  intros He Hs.
  eapply (exec_invariant Call (heap w) (Group_Freeze g) errs_ok); eauto.
  - intros c s1 s2. apply errs_ok_step.
  - by apply errs_ok_init.
Qed.

(** C8, as the code has it. When [wait] has returned it has returned
    either a tuple and no error, or nil and an error. If a task function
    has returned an error, it is nil and an error: the first error a task
    returned when the builtin came back from the join, and otherwise the
    error the limiter's wait or the select gave once the failure had
    cancelled the context. A goroutine that holds a call can always run
    it and no other move takes it away; after a failure the next pass
    through the loop admits and dispatches nothing and returns. *)
Theorem wait_error_no_partial_results Call w g sched s :
  frozen g = false -> eg_err (group g) = None ->
  exec Call (heap w) (Group_Freeze g) sched (wait_init (Group_Freeze g)) = Some s ->
  (forall r,
     (group_wait Call w g sched).2 = Some r ->
     ((exists el, r = (Some el, None)) \/ (exists e, r = (None, Some e))) /\
     (task_errors (trace s) <> [] ->
      exists e, r = (None, Some e) /\
        ((first_error (trace s) = Some e /\ EvJoin (Some e) ∈ trace s) \/
         (exists i, EvLimiterWait i (Some e) ∈ trace s) \/
         (exists i, EvCtxDone i (Some e) ∈ trace s)))) /\
  (forall k gr x,
     gos s !! k = Some gr -> held gr = Some x ->
     is_Some (step Call (heap w) (Group_Freeze g) (Go k) s) /\
     forall c s', c <> Go k ->
       step Call (heap w) (Group_Freeze g) c s = Some s' ->
       gos s' !! k = Some gr) /\
  (task_errors (trace s) <> [] ->
   forall i b, pc s = PLoop i -> (i < length (calls g))%nat ->
     exists s' e,
       step Call (heap w) (Group_Freeze g) (Main b) s = Some s' /\
       pc s' = PReturn (None, Some e) /\
       admitted (trace s') = admitted (trace s) /\
       dispatched (trace s') = dispatched (trace s)).
Proof.
  intros Hf He Hs. set (g' := Group_Freeze g) in *.
  pose proof (errs_ok_exec Call w g sched s He Hs) as (Herr & Hcx & Hret).
  fold g' in Herr, Hcx, Hret.
  assert (task_errors (trace s) <> [] -> err s <> None) as Hfail.
  { rewrite Herr. unfold first_error. by destruct (task_errors (trace s)). }
  split_and!.
  - intros r Hr. apply group_wait_returns in Hr as (s0 & Hs0 & Hp); [|done].
    fold g' in Hs0. assert (s0 = s) as -> by congruence.
    rewrite Hp in Hret. split.
    + destruct Hret as [(el & -> & _)|(e & -> & _)]; eauto.
    + intros Ht. specialize (Hfail Ht).
      destruct Hret as [(el & -> & Hn & _)|(e & -> & Hd)]; [done|].
      exists e. split; [done|].
      destruct Hd as [[He1 Hj]|[Hl|Hd]]; [left|by right; left|by right; right].
      split; [|done]. by rewrite <- Herr.
  - intros k gr x Hk Hh. split.
    + by eapply held_enabled.
    + intros c s' Hc H'. by eapply held_untouched.
  - intros Ht i b Hp Hi.
    destruct (failed_refuses g' s) as [e Hw]; [done|by apply Hfail|].
    destruct (limiter_refusal Call (heap w) g' b s i e Hp Hi Hw)
      as (s' & Hs' & Hp' & Hd' & Ha').
    by exists s', e.
Qed.

Lemma succeed_squares : succeed sample_call ∅ squares.
Proof.
  intros v Hv. vm_compute in Hv.
  repeat (apply elem_of_cons in Hv as [->|Hv]; [reflexivity|]).
  by apply elem_of_nil in Hv.
Defined.

Lemma wait_results_in_registration_order_witness :
  frozen squares = false /\ ctx squares = None /\
  eg_err (group squares) = None /\ admits squares /\
  succeed sample_call (heap world0) squares /\
  (group_wait sample_call world0 squares reversed_completion).2
    = Some (Some [Some (VInt 9); Some (VInt 16); Some (VInt 25)], None).
Proof.
  do 4 (split; [reflexivity|]). split; [apply succeed_squares|].
  destruct (wait_results_in_registration_order sample_call world0 squares
              eq_refl eq_refl eq_refl eq_refl succeed_squares) as (Hall & _).
  rewrite (Hall reversed_completion
             (Some [Some (VInt 9); Some (VInt 16); Some (VInt 25)], None)).
  - reflexivity.
  - repeat constructor.
  - reflexivity.
Defined.

(** C8 as stated fails: the first call returns the error "boom", the
    cancellation that follows reaches the limiter's wait before the join,
    and [wait] returns the context's error, not the task's. *)
Lemma wait_returns_cancellation_not_task_error :
  (group_wait sample_call world0 failing_group fail_early).2
    = Some (None, Some Canceled) /\
  first_error (log (group_wait sample_call world0 failing_group fail_early).1.1)
    = Some (EvalError "boom") /\
  Canceled <> EvalError "boom".
Proof. split_and!; [reflexivity|reflexivity|discriminate]. Qed.

Lemma wait_error_no_partial_results_witness :
  frozen failing_group = false /\ eg_err (group failing_group) = None /\
  exists s,
    exec sample_call (heap world0) (Group_Freeze failing_group) fail_early
         (wait_init (Group_Freeze failing_group)) = Some s /\
    forall r,
      (group_wait sample_call world0 failing_group fail_early).2 = Some r ->
      (exists el, r = (Some el, None)) \/ (exists e, r = (None, Some e)).
Proof.
  split; [reflexivity|]. split; [reflexivity|].
  eexists. split; [vm_compute; reflexivity|].
  intros r Hr.
  eapply (wait_error_no_partial_results sample_call world0 failing_group
            fail_early); [reflexivity|reflexivity|vm_compute; reflexivity|exact Hr].
Defined.

Lemma wait_admits_in_order_witness :
  frozen cancelled_squares = false /\
  exec sample_call (heap world0) (Group_Freeze cancelled_squares) []
       (wait_init (Group_Freeze cancelled_squares))
    = Some (wait_init (Group_Freeze cancelled_squares)) /\
  (group_wait sample_call world0 cancelled_squares [Main false]).2
    = Some (None, Some Canceled).
Proof.
  split; [reflexivity|]. split; [reflexivity|].
  destruct (wait_admits_in_order sample_call world0 cancelled_squares []
              (wait_init (Group_Freeze cancelled_squares)) eq_refl eq_refl)
    as (_ & Habort & _).
  destruct (Habort O Canceled false eq_refl ltac:(vm_compute; lia) eq_refl)
    as (s' & Hs' & Hp & Hrest).
  exact (proj1 (Hrest [] s' eq_refl)).
Defined.

(* ===================================================================== *)
(** ** group.go *)

Lemma freeze_kwargs_nil todo : forall i ks h,
  Forall (fun t => t = []) todo ->
  (forall j, (j < length todo)%nat -> ks !! (i + j)%nat = Some []) ->
  freeze_kwargs i todo ks h = (ks, h).
Proof.
  induction todo as [|t todo IH]; intros i ks h Hall Hks; [done|].
  inversion Hall as [|? ? Ht Hall']; subst. simpl.
  rewrite list_insert_id.
  - apply IH; [done|]. intros j Hj.
    replace (S i + j)%nat with (i + S j)%nat by lia. apply Hks. simpl. lia.
  - specialize (Hks O). rewrite Nat.add_0_r in Hks. apply Hks. simpl. lia.
Qed.

(** The loop over the keyword arguments runs over the slice just made:
    it freezes nothing and leaves the nil tuples in place. *)
Lemma freeze_kwargs_fresh k h :
  freeze_kwargs 0 (replicate k []) (replicate k []) h = (replicate k [], h).
Proof.
  apply freeze_kwargs_nil.
  - apply Forall_replicate. done.
  - intros j Hj. rewrite length_replicate in Hj. simpl.
    by apply lookup_replicate_2.
Qed.

(** What [go] does once its first argument is callable and the group is
    not frozen. *)
Lemma group_go_callable w g f args0 kwargs0 :
  is_callable f = true -> frozen g = false ->
  group_go w g (f :: args0) kwargs0 =
    (mkWorld (Tuple_Freeze (f :: args0) (heap w)) (log w),
     match ctx g with
     | Some _ => g
     | None =>
         mkGroup (ctx g) (group g) (limiter g) (frozen g) (n g)
           (calls g ++ [mkCallable f args0 (replicate (length kwargs0) [])])
     end,
     (Some VNone, None)).
Proof.
  intros Hc Hf. unfold group_go. rewrite Hc, Hf. simpl.
  rewrite freeze_kwargs_fresh. by destruct (ctx g).
Qed.

Lemma called_ok_exec Call h g sched s :
  exec Call h g sched (wait_init g) = Some s -> called_ok Call h g s.
Proof.
  intros Hs.
  assert (closures_ok g s /\ called_ok Call h g s) as [_ ?]; [|done].
  eapply (exec_invariant Call h g
            (fun s => closures_ok g s /\ called_ok Call h g s)); eauto.
  - intros c s1 s2 [Hcl Hca] H. split.
    + by eapply closures_ok_step.
    + by eapply called_ok_step.
  - split; [apply closures_ok_init|apply called_ok_init].
Qed.

(** C2. On a group that is not frozen, [go] with a callable returns None
    at once and makes no call on the limiter, the errgroup, the channel
    or the function (the record of such calls is unchanged, and so are
    the limiter and the errgroup): with a live context it only appends
    the call to [calls]. The function is called in [wait]: every call a
    run of [wait] makes is the call of a recorded task, with the recorded
    arguments, made after the limiter has let that task through. *)
Theorem go_only_records w g f args0 kwargs0 :
  frozen g = false -> is_callable f = true ->
  exists w' g',
    group_go w g (f :: args0) kwargs0 = (w', g', (Some VNone, None)) /\
    log w' = log w /\ limiter g' = limiter g /\ group g' = group g /\
    ctx g' = ctx g /\ n g' = n g /\ frozen g' = false /\
    (ctx g = None ->
     calls g' = calls g ++ [mkCallable f args0 (replicate (length kwargs0) [])]) /\
    (forall Call sched s,
       exec Call (heap w') (Group_Freeze g') sched (wait_init (Group_Freeze g'))
         = Some s ->
       forall i r, (i, r) ∈ invoked (trace s) ->
         i ∈ admitted (trace s) /\
         exists v th, calls g' !! i = Some v /\
                      r = Call (heap w') th (fn v) (args v) (kwargs v)).
Proof.
  intros Hf Hc. rewrite (group_go_callable _ _ _ _ _ Hc Hf).
  eexists _, _. split; [reflexivity|]. simpl.
  split_and!; try (destruct (ctx g) eqn:E; simpl; congruence).
  intros Call sched s Hs i r Hi.
  by apply (called_ok_exec _ _ _ _ _ Hs).
Qed.

(** C5. With a context that is already cancelled, [go] with a callable
    on an unfrozen group returns None without error and leaves the group
    as it was: nothing is recorded, and nothing is called. *)
Theorem go_after_cancel_is_noop w g f args0 kwargs0 e :
  frozen g = false -> is_callable f = true -> ctx g = Some e ->
  exists w',
    group_go w g (f :: args0) kwargs0 = (w', g, (Some VNone, None)) /\
    log w' = log w.
Proof.
  intros Hf Hc Hctx. rewrite (group_go_callable _ _ _ _ _ Hc Hf), Hctx.
  by eexists.
Qed.

(** C3. Whatever [wait] did under its schedule (returned a tuple,
    returned an error, or has not returned yet), the group is frozen
    afterwards: [go] with a callable fails with "group: frozen" and leaves
    the group as it is, and [wait] fails with "group.wait: frozen". *)
Theorem frozen_after_wait Call w g sched :
  frozen g = false ->
  let g1 := (group_wait Call w g sched).1.2 in
  frozen g1 = true /\
  (forall w2 f args0 kwargs0,
     is_callable f = true ->
     group_go w2 g1 (f :: args0) kwargs0
       = (w2, g1, (None, Some (Errorf "group: frozen")))) /\
  (forall Call' w2 sched',
     group_wait Call' w2 g1 sched'
       = (w2, g1, Some (None, Some (Errorf "group.wait: frozen")))).
Proof.
  intros Hf g1.
  assert (frozen g1 = true) as Hg1.
  { unfold g1. rewrite group_wait_unfrozen by done.
    by destruct (exec _ _ _ _ _). }
  split_and!; [done| |].
  - intros w2 f args0 kwargs0 Hc. unfold group_go. by rewrite Hc, Hg1.
  - intros Call' w2 sched'. unfold group_wait. by rewrite Hg1.
Qed.

Lemma go_only_records_witness :
  frozen fresh_group = false /\ is_callable (VCallable "square") = true /\
  exists w' g',
    group_go world0 fresh_group [VCallable "square"; VInt 3] []
      = (w', g', (Some VNone, None)) /\
    log w' = [] /\
    calls g' = [mkCallable (VCallable "square") [VInt 3] []].
Proof.
  split; [reflexivity|]. split; [reflexivity|].
  destruct (go_only_records world0 fresh_group (VCallable "square") [VInt 3] []
              eq_refl eq_refl)
    as (w' & g' & Hgo & Hlog & _ & _ & _ & _ & _ & Hcalls & _).
  exists w', g'. split; [exact Hgo|]. split; [exact Hlog|].
  exact (Hcalls eq_refl).
Defined.

Lemma go_after_cancel_is_noop_witness :
  frozen cancelled_squares = false /\
  is_callable (VCallable "square") = true /\
  ctx cancelled_squares = Some Canceled /\
  exists w',
    group_go world0 cancelled_squares [VCallable "square"; VInt 7] []
      = (w', cancelled_squares, (Some VNone, None)) /\
    log w' = [].
Proof.
  do 3 (split; [reflexivity|]).
  exact (go_after_cancel_is_noop world0 cancelled_squares (VCallable "square")
           [VInt 7] [] Canceled eq_refl eq_refl eq_refl).
Defined.

Lemma frozen_after_wait_witness :
  frozen squares = false /\
  frozen (group_wait sample_call world0 squares reversed_completion).1.2 = true /\
  group_go world0 (group_wait sample_call world0 squares reversed_completion).1.2
           [VCallable "square"; VInt 6] []
    = (world0, (group_wait sample_call world0 squares reversed_completion).1.2,
       (None, Some (Errorf "group: frozen"))).
Proof.
  split; [reflexivity|].
  destruct (frozen_after_wait sample_call world0 squares reversed_completion
              eq_refl) as (Hfr & Hgo & _).
  split; [exact Hfr|].
  exact (Hgo world0 (VCallable "square") [VInt 6] [] eq_refl).
Defined.

(* ===================================================================== *)
(** ** Freeze *)

Lemma Value_ind_nested (P : Value -> Prop) :
  P VNone -> (forall z, P (VInt z)) -> (forall s, P (VString s)) ->
  (forall vs, Forall P vs -> P (VTuple vs)) ->
  (forall l, P (VList l)) -> (forall name, P (VCallable name)) ->
  forall v, P v.
Proof.
  intros HN HI HS HT HL HC. fix IH 1.
  intros [ |z|s|vs|l|name];
    [exact HN|apply HI|apply HS| |apply HL|apply HC].
  apply HT. induction vs as [|v vs IHvs]; constructor; [apply IH|exact IHvs].
Qed.

Lemma freeze_tuple fuel vs h :
  freeze fuel (VTuple vs) h = foldl (fun h' e => freeze fuel e h') h vs.
Proof.
  revert h. induction vs as [|v vs IH]; intros h; [by destruct fuel|].
  simpl. rewrite <- IH. by destruct fuel.
Qed.

Lemma freeze_list fuel l h :
  freeze (S fuel) (VList l) h =
    match h !! l with
    | Some o =>
        if lfrozen o then h
        else foldl (fun h' e => freeze fuel e h')
                   (<[l := mkList (lelems o) true]> h) (lelems o)
    | None => h
    end.
Proof. done. Qed.

Lemma keeps_refl h : keeps h h.
Proof. split; [|done]. intros l o Hl. by exists o. Qed.

Lemma keeps_trans h1 h2 h3 : keeps h1 h2 -> keeps h2 h3 -> keeps h1 h3.
Proof.
  intros [H12 N12] [H23 N23]. split; [|by auto].
  intros l o Hl. destruct (H12 l o Hl) as (o2 & Hl2 & He2 & Hf2).
  destruct (H23 l o2 Hl2) as (o3 & Hl3 & He3 & Hf3).
  exists o3. split_and!; [done|congruence|auto].
Qed.

Lemma keeps_foldl (f : Heap -> Value -> Heap) vs :
  Forall (fun v => forall h, keeps h (f h v)) vs ->
  forall h, keeps h (foldl f h vs).
Proof.
  induction 1 as [|v vs Hv Hvs IH]; intros h; [apply keeps_refl|].
  simpl. eapply keeps_trans; [apply Hv|apply IH].
Qed.

Lemma keeps_freeze_flag h l o :
  h !! l = Some o -> keeps h (<[l := mkList (lelems o) true]> h).
Proof.
  intros Hl. split.
  - intros l' o' Hl'. destruct (decide (l' = l)) as [->|Hne].
    + eexists. split; [apply lookup_insert_eq|]. by simplify_eq.
    + exists o'. by rewrite lookup_insert_ne.
  - intros l' Hl'. rewrite lookup_insert_ne; [done|]. congruence.
Qed.

(** Freezing never changes the elements of a list and never unfreezes. *)
Lemma freeze_keeps fuel : forall v h, keeps h (freeze fuel v h).
Proof.
  induction fuel as [|fuel IHf]; intros v; induction v
    as [ |z|s|vs IHvs|l|name] using Value_ind_nested; intros h;
    try apply keeps_refl.
  - rewrite freeze_tuple. by apply keeps_foldl.
  - rewrite freeze_tuple. by apply keeps_foldl.
  - rewrite freeze_list. destruct (h !! l) as [o|] eqn:Hl; [|apply keeps_refl].
    destruct (lfrozen o); [apply keeps_refl|].
    eapply keeps_trans; [by apply keeps_freeze_flag|].
    apply keeps_foldl. apply Forall_forall. intros e _ h'. apply IHf.
Qed.

Lemma Freeze_keeps v h : keeps h (Freeze v h).
Proof. apply freeze_keeps. Qed.

Lemma Tuple_Freeze_keeps t h : keeps h (Tuple_Freeze t h).
Proof.
  unfold Tuple_Freeze. apply keeps_foldl, Forall_forall.
  intros e _ h'. apply Freeze_keeps.
Qed.

(** A list passed to [Freeze] is frozen afterwards. *)
Lemma Freeze_list_frozen l h o :
  h !! l = Some o ->
  exists o', Freeze (VList l) h !! l = Some o' /\ lfrozen o' = true /\
             lelems o' = lelems o.
Proof.
  intros Hl. unfold Freeze. rewrite freeze_list, Hl.
  destruct (lfrozen o) eqn:Hf.
  - exists o. by rewrite Hl.
  - assert (keeps (<[l := mkList (lelems o) true]> h)
              (foldl (fun h' e => freeze (size h) e h')
                     (<[l := mkList (lelems o) true]> h) (lelems o))) as Hk.
    { apply keeps_foldl, Forall_forall. intros e _ h'. apply freeze_keeps. }
    destruct (proj1 Hk l (mkList (lelems o) true)) as (o' & Ho' & He & Hfr).
    { apply lookup_insert_eq. }
    exists o'. split_and!; [done|by apply Hfr|done].
Qed.

(** So is every list among the elements of a tuple passed to
    [Tuple.Freeze]. *)
Lemma Tuple_Freeze_list_frozen t l h o :
  VList l ∈ t -> h !! l = Some o ->
  exists o', Tuple_Freeze t h !! l = Some o' /\ lfrozen o' = true /\
             lelems o' = lelems o.
Proof.
  unfold Tuple_Freeze. revert h o.
  induction t as [|v t IH]; intros h o Hin Hl; [by apply elem_of_nil in Hin|].
  simpl. apply elem_of_cons in Hin as [<-|Hin].
  - destruct (Freeze_list_frozen l h o Hl) as (o1 & Hl1 & Hf1 & He1).
    destruct (proj1 (Tuple_Freeze_keeps t (Freeze (VList l) h)) l o1 Hl1)
      as (o2 & Hl2 & He2 & Hf2).
    exists o2. split_and!; [done|auto|congruence].
  - destruct (proj1 (Freeze_keeps v h) l o Hl) as (o1 & Hl1 & He1 & _).
    destruct (IH _ _ Hin Hl1) as (o2 & Hl2 & Hf2 & He2).
    exists o2. split_and!; [done|done|congruence].
Qed.

(** A frozen list rejects [append] and the heap stays as it is. *)
Lemma list_append_frozen l v h o :
  h !! l = Some o -> lfrozen o = true ->
  list_append l v h
    = (h, Some (EvalError "append: cannot append to frozen list")).
Proof. intros Hl Hf. unfold list_append. by rewrite Hl, Hf. Qed.

(** The lists passed to [go] as positional arguments are frozen when
    [go] returns, whether or not the call was recorded: a later [append]
    fails and the list keeps the elements it had. *)
Lemma go_freezes_positional_lists w g f args0 kwargs0 l o v :
  frozen g = false -> is_callable f = true ->
  VList l ∈ args0 -> heap w !! l = Some o ->
  let w' := (group_go w g (f :: args0) kwargs0).1.1 in
  (exists o', heap w' !! l = Some o' /\ lfrozen o' = true /\
              lelems o' = lelems o) /\
  list_append l v (heap w')
    = (heap w', Some (EvalError "append: cannot append to frozen list")).
Proof.
  intros Hf Hc Hin Hl. rewrite (group_go_callable _ _ _ _ _ Hc Hf). simpl.
  destruct (Tuple_Freeze_list_frozen (f :: args0) l (heap w) o)
    as (o' & Hl' & Hf' & He'); [by right|done|].
  split; [by exists o'|]. by eapply list_append_frozen.
Qed.

(** C4 at [g.go(len, x = l)]: [go] succeeds and records the call, but the
    list passed by name is not frozen (and the recorded keyword arguments
    are one nil tuple): [l.append(2)] afterwards succeeds and changes it. *)
Theorem go_leaves_named_argument_unfrozen :
  (go_named fresh_group).2 = (Some VNone, None) /\
  calls (go_named fresh_group).1.2 = [mkCallable (VCallable "len") [] [[]]] /\
  heap (go_named fresh_group).1.1 !! 1%positive = Some (mkList [VInt 1] false) /\
  (list_append 1 (VInt 2) (heap (go_named fresh_group).1.1)).2 = None /\
  (list_append 1 (VInt 2) (heap (go_named fresh_group).1.1)).1 !! 1%positive
    = Some (mkList [VInt 1; VInt 2] false).
Proof. by vm_compute. Qed.

(** The same list passed by position is frozen. *)
Lemma go_freezes_positional_example :
  (go_positional fresh_group).2 = (Some VNone, None) /\
  heap (go_positional fresh_group).1.1 !! 1%positive
    = Some (mkList [VInt 1] true) /\
  (list_append 1 (VInt 2) (heap (go_positional fresh_group).1.1)).2
    = Some (EvalError "append: cannot append to frozen list").
Proof. by vm_compute. Qed.

(** C10 at [g.go(len, x = l)] on a cancelled context: [go] returns None
    and records nothing, and the list passed by name is left unfrozen. *)
Theorem cancelled_go_leaves_named_argument_unfrozen :
  (go_named cancelled_group).2 = (Some VNone, None) /\
  calls (go_named cancelled_group).1.2 = [] /\
  heap (go_named cancelled_group).1.1 !! 1%positive
    = Some (mkList [VInt 1] false) /\
  (list_append 1 (VInt 2) (heap (go_named cancelled_group).1.1)).2 = None.
Proof. by vm_compute. Qed.

(** On the cancelled context the list passed by position is frozen all
    the same. *)
Lemma cancelled_go_freezes_positional_example :
  (go_positional cancelled_group).2 = (Some VNone, None) /\
  calls (go_positional cancelled_group).1.2 = [] /\
  heap (go_positional cancelled_group).1.1 !! 1%positive
    = Some (mkList [VInt 1] true).
Proof. by vm_compute. Qed.

(* ===================================================================== *)
(** ** The pool and the cap *)

Lemma shape_exec Call h g sched s :
  exec Call h g sched (wait_init g) = Some s -> shape g s.
Proof.
  intros Hs. eapply (exec_invariant Call h g (shape g)); eauto using shape_init.
  intros c s1 s2. apply shape_step.
Qed.

(** What [group_wait] does with the field [n]: with [0 < n] it starts one
    worker per task let through while fewer than [n] were, that is
    [min n T] workers for [T] tasks, and no goroutine per call; with
    [n <= 0] it makes no channel and starts one goroutine per task. *)
Lemma pool_follows_cap Call h g sched s :
  exec Call h g sched (wait_init g) = Some s ->
  (0 < n g ->
   Z.of_nat (workers_spawned (trace s))
     = Z.min (n g) (Z.of_nat (length (admitted (trace s)))) /\
   calls_spawned (trace s) = 0%nat /\
   length (gos s) = workers_spawned (trace s)) /\
  (n g <= 0 ->
   workers_spawned (trace s) = 0%nat /\ chans_made (trace s) = 0%nat /\
   queue s = None /\
   calls_spawned (trace s) = length (admitted (trace s))).
Proof.
  intros Hs. destruct (shape_exec _ _ _ _ _ Hs)
    as (_ & _ & k & m & d & Ha & _ & _ & _ & Hq).
  rewrite Ha, length_seq. unfold pool_shape in Hq.
  destruct (n g <=? 0) eqn:Hn; zbool; split; intros Hn'; try lia;
    by destruct Hq as (? & ? & ? & ? & ?).
Qed.

(** With the field at 2 the three squares are run by min(2, 3) = 2
    workers fed through the channel. *)
Lemma pooled_squares_example :
  (group_wait sample_call world0 (squares_group 2) pooled_completion).2
    = Some (Some [Some (VInt 9); Some (VInt 16); Some (VInt 25)], None) /\
  workers_spawned
    (log (group_wait sample_call world0 (squares_group 2) pooled_completion).1.1)
    = 2%nat /\
  calls_spawned
    (log (group_wait sample_call world0 (squares_group 2) pooled_completion).1.1)
    = 0%nat.
Proof. by vm_compute. Qed.

(** [NewGroup] does not store its argument [n]. *)
Lemma NewGroup_n c n0 r b : n (NewGroup c n0 r b) = 0.
Proof. done. Qed.

Lemma Make_n thread args0 kwargs0 g :
  Make thread args0 kwargs0 = (Some g, None) -> n g = 0.
Proof.
  unfold Make. intros H. repeat case_match; by simplify_eq.
Qed.

Lemma group_go_n w g args0 kwargs0 : n (group_go w g args0 kwargs0).1.2 = n g.
Proof.
  unfold group_go. repeat case_match; simplify_eq/=; done.
Qed.

(** C7 at [group(n = 2)] with three tasks: the group made has [n = 0],
    and [wait] starts three goroutines, one per call, makes no channel and
    starts no worker, where the cap calls for min(2, 3) = 2 workers. *)
Theorem group_n2_spawns_no_worker :
  (exists g, make_n2 = (Some g, None) /\ n g = 0) /\
  n capped_squares = 0 /\
  (group_wait sample_call world0 capped_squares reversed_completion).2
    = Some (Some [Some (VInt 9); Some (VInt 16); Some (VInt 25)], None) /\
  workers_spawned
    (log (group_wait sample_call world0 capped_squares reversed_completion).1.1)
    = 0%nat /\
  chans_made
    (log (group_wait sample_call world0 capped_squares reversed_completion).1.1)
    = 0%nat /\
  calls_spawned
    (log (group_wait sample_call world0 capped_squares reversed_completion).1.1)
    = 3%nat.
Proof. split; [eexists; by vm_compute|by vm_compute]. Qed.

(* ===================================================================== *)
(** ** Make *)

(** C9, as the code has it. A non-empty [every] that does not parse makes
    [Make] fail with the parser's error; one that parses is accepted
    whatever its sign: the limiter gets [rate.Every] of the duration,
    which is one event per interval for a positive interval and no limit
    at all for a zero or negative one. *)
Theorem Make_every_parsed thread args0 kwargs0 pn every pburst :
  UnpackArgs args0 kwargs0 = inl (pn, every, pburst) -> every <> "" ->
  match ParseDuration every with
  | inr e => Make thread args0 kwargs0 = (None, Some e)
  | inl d =>
      exists g,
        Make thread args0 kwargs0 = (Some g, None) /\
        limiter g = NewLimiter (Every d) pburst /\
        (d <= 0 -> limit (limiter g) = Inf) /\
        (0 < d -> limit (limiter g) = PerInterval d)
  end.
Proof.
  intros Hu He. unfold Make. rewrite Hu.
  apply String.eqb_neq in He. rewrite He.
  destruct (ParseDuration every) as [d|e]; [|done].
  eexists. split; [done|]. simpl. split; [done|]. unfold Every.
  split; intros Hd.
  - by rewrite (proj2 (Z.leb_le _ _) Hd).
  - by rewrite (proj2 (Z.leb_gt _ _) Hd).
Qed.

(** C9 as stated fails: "0s" and "-1s" parse to a zero and a negative
    interval and [Make] accepts them, with a limiter that never limits. *)
Lemma Make_accepts_nonpositive_every :
  ParseDuration "0s" = inl 0 /\
  ParseDuration "-1s" = inl (-1000000000) /\
  make_every "0s" = (Some (NewGroup Background 0 Inf 0), None) /\
  make_every "-1s" = (Some (NewGroup Background 0 Inf 0), None) /\
  limit (limiter (NewGroup Background 0 Inf 0)) = Inf.
Proof. by vm_compute. Qed.

(** A string that is no duration is refused by [Make]. *)
Lemma Make_rejects_unparsable_example :
  make_every "soon"
    = (None, Some (Errorf ("time: invalid duration " +:+ quote "soon"))).
Proof. by vm_compute. Qed.

Lemma Make_every_parsed_witness :
  UnpackArgs [] [[VString "every"; VString "10ms"]] = inl (0, "10ms", 0) /\
  "10ms" <> "" /\
  exists g,
    make_every "10ms" = (Some g, None) /\
    limiter g = NewLimiter (PerInterval 10000000) 0.
Proof.
  split; [reflexivity|]. split; [discriminate|].
  pose proof (Make_every_parsed (mkThread None) []
                [[VString "every"; VString "10ms"]] 0 "10ms" 0
                eq_refl ltac:(discriminate)) as H.
  change (ParseDuration "10ms") with (inl 10000000 : Duration + error) in H.
  destruct H as (g & Hm & Hl & _). exists g. split; [exact Hm|exact Hl].
Defined.

(* ===================================================================== *)
(** ** The earlier revision *)

(** In the earlier revision [go] is not lazy: with a live context it
    waits on the limiter and hands the call to the errgroup itself. *)
Lemma Eager_go_dispatches w g f args0 kwargs0 b :
  Eager.frozen g = false -> is_callable f = true ->
  Eager.ctx g = None -> Eager.n g <= 0 ->
  log (Eager.group_go w g (f :: args0) kwargs0 b).1.1
    = log w ++ [EvLimiterWait (Eager.i g)
                  (Limiter_Wait (Eager.limiter g) None);
                EvGo (SpCall (Eager.i g))] /\
  Eager.i (Eager.group_go w g (f :: args0) kwargs0 b).1.2 = S (Eager.i g).
Proof.
  intros Hf Hc Hctx Hn. unfold Eager.group_go.
  rewrite Hc, Hf, Hctx. simpl.
  by rewrite (proj2 (Z.leb_le _ _) Hn).
Qed.

(** There the loop over the keyword arguments runs over the arguments:
    the list passed by name is frozen. *)
Lemma Eager_go_freezes_named_example :
  eager_go_named.2 = (Some VNone, None) /\
  heap eager_go_named.1.1 !! 1%positive = Some (mkList [VInt 1] true) /\
  (list_append 1 (VInt 2) (heap eager_go_named.1.1)).2
    = Some (EvalError "append: cannot append to frozen list").
Proof. by vm_compute. Qed.

Lemma Sorted_res_i l :
  Sorted Eager.byPos l -> Sorted le (map Eager.res_i l).
Proof.
  induction 1 as [|a l Hs IH Hhd]; simpl; constructor; [done|].
  destruct Hhd; simpl; by constructor.
Qed.

Lemma Sorted_seq s k : Sorted le (seq s k).
Proof.
  revert s. induction k as [|k IH]; intros s; simpl; constructor; [apply IH|].
  destruct k; simpl; constructor. lia.
Qed.

(** X13. In the earlier revision [wait] gives the values by position:
    when the goroutines have left one result for each of the positions
    [0 .. k-1], in whatever order, with the value [f p] at position [p],
    and the join reports no error, the list returned is
    [f 0, ..., f (k-1)]. *)
Lemma Eager_wait_by_position w g k (f : nat -> Value) :
  Eager.frozen g = false ->
  map Eager.res_i (Eager.results g) ≡ₚ seq 0 k ->
  (forall r, r ∈ Eager.results g -> Eager.res_v r = f (Eager.res_i r)) ->
  (Eager.group_wait w g None).2 = (Some (map f (seq 0 k)), None).
Proof.
  intros Hf Hperm Hval.
  set (l := Eager.sort_byPos (Eager.results g)).
  assert (l ≡ₚ Eager.results g) as Hl by apply merge_sort_Permutation.
  assert (map Eager.res_i l = seq 0 k) as Hpos.
  { apply (Sorted_unique le).
    - apply Sorted_res_i. apply Sorted_merge_sort. apply _.
    - apply Sorted_seq.
    - by rewrite Hl. }
  assert (map Eager.res_v l = map f (seq 0 k)) as Hv.
  { rewrite <- Hpos, map_map. apply map_ext_in. intros r Hr.
    apply Hval. rewrite <- Hl. by apply list_elem_of_In. }
  unfold Eager.group_wait. rewrite Hf.
  destruct (Eager.queue g); simpl; fold l; by rewrite Hv.
Qed.

(* ===================================================================== *)
(** ** Freeze is deep *)

Lemma frozen_at_keeps h h' l : keeps h h' -> frozen_at h l -> frozen_at h' l.
Proof.
  intros [Hk Hn] Hf o' Hl'. destruct (h !! l) as [o|] eqn:Hl.
  - destruct (Hk l o Hl) as (o2 & Hl2 & _ & Hfr). simplify_eq. auto.
  - rewrite (Hn l Hl) in Hl'. done.
Qed.

Lemma newly_closed_refl h : newly_closed h h.
Proof. intros l o o' e l' Hl Hf Hl' Hf'. congruence. Qed.

Lemma newly_closed_trans h1 h2 h3 :
  keeps h1 h2 -> keeps h2 h3 ->
  newly_closed h1 h2 -> newly_closed h2 h3 -> newly_closed h1 h3.
Proof.
  intros K12 K23 N12 N23 l o o3 e l' Hl Hf Hl3 Hf3 He Hd.
  destruct (proj1 K12 l o Hl) as (o2 & Hl2 & He2 & _).
  destruct (lfrozen o2) eqn:Hf2.
  - eapply frozen_at_keeps; [done|].
    destruct (proj1 K23 l o2 Hl2) as (o3' & Hl3' & He3 & _). simplify_eq.
    eapply (N12 l o o2 e l'); eauto. congruence.
  - eapply (N23 l o2 o3 e l'); eauto.
Qed.

Lemma unfrozen_keeps h h' : keeps h h' -> (unfrozen h' <= unfrozen h)%nat.
Proof.
  intros [Hk Hn]. unfold unfrozen. apply map_subseteq_size.
  apply map_subseteq_spec. intros l o' Hl'.
  apply map_lookup_filter_Some in Hl' as [Hl' Hf']. simpl in Hf'.
  apply map_lookup_filter_Some.
  destruct (h !! l) as [o|] eqn:Hl; [|by rewrite (Hn l Hl) in Hl'].
  destruct (Hk l o Hl) as (o2 & Hl2 & He2 & Hfr). simplify_eq.
  destruct o as [el fr], o' as [el' fr']. simpl in *. subst.
  destruct fr; [by specialize (Hfr eq_refl)|done].
Qed.

Lemma unfrozen_freeze_flag h l o :
  h !! l = Some o -> lfrozen o = false ->
  (unfrozen (<[l := mkList (lelems o) true]> h) < unfrozen h)%nat.
Proof.
  intros Hl Hf. unfold unfrozen.
  rewrite map_filter_insert_False by (simpl; congruence).
  rewrite map_filter_delete.
  assert (filter (fun p : loc * ListObj => lfrozen p.2 = false) h !! l = Some o)
    as Hin by by apply map_lookup_filter_Some.
  pose proof (map_size_delete_Some l _ (mk_is_Some _ _ Hin)).
  pose proof (map_size_ne_0_lookup_2 _ _ (mk_is_Some _ _ Hin)). lia.
Qed.

Lemma unfrozen_size h : (unfrozen h <= size h)%nat.
Proof. apply map_subseteq_size, map_filter_subseteq. Qed.

Lemma frozen_from_foldl (f : Heap -> Value -> Heap) (bound : nat) vs :
  Forall (fun v => forall h, (unfrozen h < bound)%nat -> frozen_from v h (f h v)) vs ->
  forall h, (unfrozen h < bound)%nat ->
    keeps h (foldl f h vs) /\
    (forall v l, v ∈ vs -> direct v l -> frozen_at (foldl f h vs) l) /\
    newly_closed h (foldl f h vs).
Proof.
  induction 1 as [|v vs Hv Hvs IH]; intros h Hb; simpl.
  - split_and!; [apply keeps_refl| |apply newly_closed_refl].
    intros v l Hin. by apply elem_of_nil in Hin.
  - destruct (Hv h Hb) as (K1 & D1 & N1).
    destruct (IH (f h v)) as (K2 & D2 & N2).
    { pose proof (unfrozen_keeps _ _ K1). lia. }
    split_and!.
    + by eapply keeps_trans.
    + intros v' l Hin Hd. apply elem_of_cons in Hin as [->|Hin].
      * eapply frozen_at_keeps; [done|]. by apply D1.
      * by eapply D2.
    + by eapply newly_closed_trans.
Qed.

(** With fuel for every list not yet frozen, [freeze] freezes the lists
    the value refers to and leaves the lists it has frozen holding
    frozen lists only. *)
Lemma freeze_frozen_from fuel :
  forall v h, (unfrozen h < fuel)%nat -> frozen_from v h (freeze fuel v h).
Proof.
  induction fuel as [|fuel IHf]; intros v; induction v
    as [ |z|s|vs IHvs|l|name] using Value_ind_nested; intros h Hb; try lia.
  all: try (split_and!; [apply keeps_refl| |apply newly_closed_refl];
            intros l' Hd; by inversion Hd).
  - rewrite freeze_tuple.
    destruct (frozen_from_foldl (fun h' e => freeze (S fuel) e h') (S fuel) vs
                IHvs h Hb) as (K & D & N).
    split_and!; [done| |done].
    intros l Hd. inversion Hd; subst. by eapply D.
  - rewrite freeze_list. destruct (h !! l) as [o|] eqn:Hl.
    2:{ split_and!; [apply keeps_refl| |apply newly_closed_refl].
        intros l' Hd o' Hl'. inversion Hd; subst. congruence. }
    destruct (lfrozen o) eqn:Hf.
    { split_and!; [apply keeps_refl| |apply newly_closed_refl].
      intros l' Hd o' Hl'. inversion Hd; subst. congruence. }
    set (h0 := <[l := mkList (lelems o) true]> h).
    pose proof (keeps_freeze_flag h l o Hl) as K0. fold h0 in K0.
    pose proof (unfrozen_freeze_flag h l o Hl Hf) as U0. fold h0 in U0.
    destruct (frozen_from_foldl (fun h' e => freeze fuel e h') fuel (lelems o))
      with (h := h0) as (K & D & N).
    { apply Forall_forall. intros e _ h' Hb'. by apply IHf. }
    { lia. }
    assert (h0 !! l = Some (mkList (lelems o) true)) as Hl0
      by apply lookup_insert_eq.
    destruct (proj1 K l _ Hl0) as (oN & HlN & HeN & HfN). simpl in *.
    split_and!.
    + by eapply keeps_trans.
    + intros l' Hd o' Hl'. inversion Hd; subst. simplify_eq. by apply HfN.
    + intros m om om' e l' Hm Hfm Hm' Hfm' He Hd.
      destruct (decide (m = l)) as [->|Hne].
      * simplify_eq. eapply D; [|done]. by rewrite <- HeN.
      * eapply (N m om om' e l'); eauto. unfold h0.
        by rewrite lookup_insert_ne.
Qed.

Lemma Freeze_frozen_from v h : frozen_from v h (Freeze v h).
Proof.
  apply freeze_frozen_from. pose proof (unfrozen_size h). lia.
Qed.

Lemma heap_closed_keeps h h' :
  keeps h h' -> newly_closed h h' -> heap_closed h -> heap_closed h'.
Proof.
  intros K N Hc l o' e l' Hl' Hf' He Hd.
  destruct (h !! l) as [o|] eqn:Hl; [|by rewrite (proj2 K l Hl) in Hl'].
  destruct (proj1 K l o Hl) as (o2 & Hl2 & He2 & Hfr). simplify_eq.
  destruct (lfrozen o) eqn:Hf.
  - eapply frozen_at_keeps; [done|]. eapply (Hc l o e l'); eauto. congruence.
  - eapply (N l o o' e l'); eauto.
Qed.

(** In a heap that keeps the invariant, a value whose lists are frozen
    is deep-frozen. *)
Lemma deep_frozen_direct h v :
  heap_closed h -> (forall l, direct v l -> frozen_at h l) -> deep_frozen h v.
Proof.
  intros Hc Hd l Hr. induction Hr as [v l Hdl|v l o e l' Hdl Hl He Hr IH];
    [by apply Hd|].
  apply IH. intros l2 Hd2. eapply (Hc l o e l2); eauto. by apply (Hd l).
Qed.

(** [Freeze] is deep. *)
Lemma Freeze_deep v h :
  heap_closed h ->
  keeps h (Freeze v h) /\ heap_closed (Freeze v h) /\
  deep_frozen (Freeze v h) v.
Proof.
  intros Hc. destruct (Freeze_frozen_from v h) as (K & D & N).
  assert (heap_closed (Freeze v h)) by by eapply heap_closed_keeps.
  split_and!; [done|done|by apply deep_frozen_direct].
Qed.

Lemma Tuple_Freeze_deep t : forall h,
  heap_closed h ->
  keeps h (Tuple_Freeze t h) /\ heap_closed (Tuple_Freeze t h) /\
  forall v, v ∈ t -> deep_frozen (Tuple_Freeze t h) v.
Proof.
  unfold Tuple_Freeze.
  induction t as [|v t IH]; intros h Hc; simpl.
  - split_and!; [apply keeps_refl|done|].
    intros v Hv. by apply elem_of_nil in Hv.
  - destruct (Freeze_frozen_from v h) as (K1 & D1 & N1).
    pose proof (heap_closed_keeps _ _ K1 N1 Hc) as Hc1.
    destruct (IH _ Hc1) as (K2 & Hc2 & D2).
    split_and!; [by eapply keeps_trans|done|].
    intros v' Hv'. apply elem_of_cons in Hv' as [->|Hv']; [|by apply D2].
    apply deep_frozen_direct; [done|]. intros l Hd.
    eapply frozen_at_keeps; [done|]. by apply D1.
Qed.

(** X11. What [go] does for its positional arguments, recorded or not
    (the context may be done): in a heap that keeps the interpreter's
    invariant the function and every positional argument are deep-frozen
    when [go] returns, so that [append] fails on every list they reach,
    and no list of the heap has lost an element or its frozen flag. *)
Lemma go_deep_freezes_positional w g f args0 kwargs0 :
  frozen g = false -> is_callable f = true -> heap_closed (heap w) ->
  let w' := (group_go w g (f :: args0) kwargs0).1.1 in
  keeps (heap w) (heap w') /\ heap_closed (heap w') /\
  forall v, v ∈ f :: args0 ->
    deep_frozen (heap w') v /\
    forall l x, reaches (heap w') v l -> is_Some (heap w' !! l) ->
      list_append l x (heap w')
        = (heap w', Some (EvalError "append: cannot append to frozen list")).
Proof.
  intros Hf Hc Hcl. rewrite (group_go_callable _ _ _ _ _ Hc Hf). simpl.
  destruct (Tuple_Freeze_deep (f :: args0) (heap w) Hcl) as (K & Hcl' & D).
  split_and!; [done|done|]. intros v Hv. split; [by apply D|].
  intros l x Hr [o Hl]. eapply list_append_frozen; [done|].
  by eapply (D v Hv l Hr).
Qed.

(* ===================================================================== *)
(** * Further properties *)

(** ** wait with nothing to run *)

Lemma idle_step Call h g c s s' :
  calls g = [] -> idle s -> step Call h g c s = Some s' -> idle s'.
Proof.
  intros Hcalls (Hg & Hq & Hel & He & Hpc) H. unfold idle.
  destruct c as [b|k|d]; simpl in H.
  - unfold step_main in H. rewrite Hcalls, Hg, Hq, He in H.
    destruct Hpc as [[Hp Ht]|[[Hp Ht]|[Hp Ht]]]; rewrite Hp in H;
      simplify_eq/=; rewrite ?Hel, ?Ht; split_and!; auto.
  - unfold step_go in H. by rewrite Hg in H.
  - unfold step_host in H. simplify_eq/=. split_and!; auto.
Qed.

(** X1. [wait] on a group without recorded calls: under every schedule,
    whatever the context and the limiter, it asks the limiter nothing,
    starts no goroutine, makes no channel and calls no function; when it
    returns it returns the empty tuple, and two moves of the builtin
    suffice. *)
Theorem wait_without_calls Call w g sched s :
  frozen g = false -> calls g = [] -> eg_err (group g) = None ->
  exec Call (heap w) (Group_Freeze g) sched (wait_init (Group_Freeze g)) = Some s ->
  limiter_waits (trace s) = [] /\ invoked (trace s) = [] /\
  gos s = [] /\ queue s = None /\
  (forall r, (group_wait Call w g sched).2 = Some r -> r = (Some [], None)) /\
  forall b1 b2,
    (group_wait Call w g [Main b1; Main b2]).2 = Some (Some [], None).
Proof.
  intros Hf Hcalls He Hs. set (g' := Group_Freeze g) in *.
  assert (idle (wait_init g')) as Hinit.
  { unfold idle; simpl. rewrite Hcalls, He. split_and!; auto. }
  assert (idle s) as (Hg & Hq & Hel & Herr & Hpc).
  { eapply (exec_invariant Call (heap w) g' idle); eauto.
    intros c s1 s2. by apply idle_step. }
  split_and!; try done.
  - destruct Hpc as [[_ ->]|[[_ ->]|[_ ->]]]; done.
  - destruct Hpc as [[_ ->]|[[_ ->]|[_ ->]]]; done.
  - intros r Hr. apply group_wait_returns in Hr as (s0 & Hs0 & Hp); [|done].
    fold g' in Hs0. assert (s0 = s) as -> by congruence.
    destruct Hpc as [[Hp' _]|[[Hp' _]|[Hp' _]]]; congruence.
  - intros b1 b2. rewrite group_wait_unfrozen by done.
    simpl. unfold step_main; simpl. rewrite Hcalls, He. simpl. done.
Qed.

Lemma wait_without_calls_witness :
  frozen fresh_group = false /\ calls fresh_group = [] /\
  eg_err (group fresh_group) = None /\
  exec sample_call (heap world0) (Group_Freeze fresh_group) [Main false]
       (wait_init (Group_Freeze fresh_group))
    = Some (mkState PJoin [] None [] None None []) /\
  (group_wait sample_call world0 fresh_group [Main true; Main false]).2
    = Some (Some [], None).
Proof.
  do 4 (split; [reflexivity|]).
  exact (proj2 (proj2 (proj2 (proj2 (proj2
           (wait_without_calls sample_call world0 fresh_group [Main false]
              (mkState PJoin [] None [] None None [])
              eq_refl eq_refl eq_refl eq_refl))))) true false).
Defined.

(** ** go: errors and accumulation *)

(** X2. [go] returns an error exactly when it has no argument, when its
    first argument is not callable, or when the group is frozen (checked
    in this order, so a non-callable is reported even on a frozen group);
    a [go] that returns an error has frozen no argument and recorded
    nothing: the heap, the log and the group are as before. *)
Theorem go_error_changes_nothing w g args0 kwargs0 e :
  (group_go w g args0 kwargs0).2.2 = Some e ->
  group_go w g args0 kwargs0 = (w, g, (None, Some e)) /\
  ((args0 = [] /\ e = Errorf "group.go: missing function arg") \/
   (exists a rest, args0 = a :: rest /\ is_callable a = false /\
      e = Errorf ("group.go: expected callable got " +:+ go_type a)) \/
   (exists a rest, args0 = a :: rest /\ is_callable a = true /\
      frozen g = true /\ e = Errorf "group: frozen")).
Proof.
  unfold group_go. intros H.
  destruct args0 as [|a rest]; [simplify_eq/=; auto|].
  destruct (is_callable a) eqn:Hc; simpl in *.
  - destruct (frozen g) eqn:Hf; simpl in *.
    + simplify_eq/=. split; [done|]. right; right. by exists a, rest.
    + rewrite freeze_kwargs_fresh in H. by destruct (ctx g).
  - simplify_eq/=. split; [done|]. right; left. by exists a, rest.
Qed.

Lemma go_error_changes_nothing_witness :
  (group_go world1 fresh_group [VList 1] []).2.2
    = Some (Errorf "group.go: expected callable got *starlark.List") /\
  group_go world1 fresh_group [VList 1] []
    = (world1, fresh_group,
       (None, Some (Errorf "group.go: expected callable got *starlark.List"))).
Proof.
  split; [reflexivity|].
  exact (proj1 (go_error_changes_nothing world1 fresh_group [VList 1] []
                  (Errorf "group.go: expected callable got *starlark.List")
                  eq_refl)).
Defined.

Lemma go_all_snoc w g cs a :
  go_all w g (cs ++ [a]) =
    let '(w1, g1) := go_all w g cs in
    let '(w2, g2, _) := group_go w1 g1 a [] in (w2, g2).
Proof. unfold go_all. rewrite foldl_app. simpl. by destruct (foldl _ _ _). Qed.

Lemma go_all_calls w g cs :
  frozen g = false -> ctx g = None -> Forall well_formed_call cs ->
  calls (go_all w g cs).2 = calls g ++ map recorded cs /\
  frozen (go_all w g cs).2 = false /\ ctx (go_all w g cs).2 = None /\
  limiter (go_all w g cs).2 = limiter g /\ group (go_all w g cs).2 = group g /\
  n (go_all w g cs).2 = n g /\ log (go_all w g cs).1 = log w.
Proof.
  intros Hf Hc. induction cs as [|a cs IH] using rev_ind; intros Hall.
  - simpl. by rewrite app_nil_r.
  - apply Forall_app in Hall as [Hcs Ha]. inversion Ha as [|? ? Hwf _]; subst.
    destruct (IH Hcs) as (Hcalls & Hf1 & Hc1 & Hl1 & Hg1 & Hn1 & Hlog1).
    rewrite go_all_snoc. destruct (go_all w g cs) as [w1 g1]. simpl in *.
    destruct a as [|f rest]; [done|]. simpl in Hwf.
    rewrite (group_go_callable _ _ _ _ _ Hwf Hf1), Hc1. simpl.
    rewrite Hcalls, map_app, app_assoc. done.
Qed.

(** X3. Successive [go]s on an unfrozen group with a live context record
    their calls in the order they are made, after the calls recorded
    before, each with the arguments after the function; they call
    nothing and leave the group otherwise as it was. *)
Theorem go_all_records_in_order w g cs :
  frozen g = false -> ctx g = None -> Forall well_formed_call cs ->
  calls (go_all w g cs).2 = calls g ++ map recorded cs /\
  frozen (go_all w g cs).2 = false /\ ctx (go_all w g cs).2 = None /\
  limiter (go_all w g cs).2 = limiter g /\ group (go_all w g cs).2 = group g /\
  n (go_all w g cs).2 = n g /\ log (go_all w g cs).1 = log w.
Proof. apply go_all_calls. Qed.

Lemma go_all_records_in_order_witness :
  frozen fresh_group = false /\ ctx fresh_group = None /\
  Forall well_formed_call
    [[VCallable "square"; VInt 3]; [VCallable "square"; VInt 4]] /\
  calls (go_all world0 fresh_group
           [[VCallable "square"; VInt 3]; [VCallable "square"; VInt 4]]).2
    = [mkCallable (VCallable "square") [VInt 3] [];
       mkCallable (VCallable "square") [VInt 4] []].
Proof.
  split; [reflexivity|]. split; [reflexivity|].
  assert (Forall well_formed_call
            [[VCallable "square"; VInt 3]; [VCallable "square"; VInt 4]]) as Hwf
    by (repeat constructor).
  split; [exact Hwf|].
  exact (proj1 (go_all_records_in_order world0 fresh_group _ eq_refl eq_refl Hwf)).
Defined.

(** ** wait in every environment *)

(** X4. [wait] cannot run forever: whatever the limiter, the context, the
    host and the functions do, a run of [wait] over [T] recorded calls
    has at most [6 * T + 2] moves of the builtin and its goroutines. *)
Theorem wait_moves_bounded Call w g sched s :
  exec Call (heap w) (Group_Freeze g) sched (wait_init (Group_Freeze g)) = Some s ->
  (program_moves sched <= 6 * length (calls g) + 2)%nat.
Proof.
  intros Hs.
  pose proof (exec_weight Call (heap w) (Group_Freeze g) sched _ s
                (pc_in_range_init _) Hs) as Hw.
  unfold weight in Hw. simpl in Hw. lia.
Qed.

Lemma wait_moves_bounded_witness :
  exists s,
    exec sample_call (heap world0) (Group_Freeze squares) reversed_completion
         (wait_init (Group_Freeze squares)) = Some s /\
    (program_moves reversed_completion <= 6 * length (calls squares) + 2)%nat.
Proof.
  eexists. split; [vm_compute; reflexivity|].
  eapply (wait_moves_bounded sample_call world0 squares reversed_completion).
  vm_compute; reflexivity.
Defined.

(** X5. No recorded call is run twice: in every run of [wait], whatever
    the limiter, the context and the schedule, the calls made have
    pairwise different indices, each was let through by the limiter
    before, and each is the call of the recorded function of its index
    with its recorded arguments. *)
Theorem wait_calls_at_most_once Call w g sched s :
  exec Call (heap w) (Group_Freeze g) sched (wait_init (Group_Freeze g)) = Some s ->
  NoDup (fst <$> invoked (trace s)) /\
  forall i r, (i, r) ∈ invoked (trace s) ->
    i ∈ admitted (trace s) /\
    exists v th, calls g !! i = Some v /\
                 r = Call (heap w) th (fn v) (args v) (kwargs v).
Proof.
  intros Hs. split.
  - destruct (sound_exec _ _ _ _ _ Hs) as (_ & _ & (Hnd & _) & _).
    unfold ledger in Hnd. by apply NoDup_app in Hnd as (_ & _ & ?).
  - apply (called_ok_exec _ _ _ _ _ Hs).
Qed.

Lemma wait_calls_at_most_once_witness :
  exists s,
    exec sample_call (heap world0) (Group_Freeze squares) reversed_completion
         (wait_init (Group_Freeze squares)) = Some s /\
    fst <$> invoked (trace s) = [2; 0; 1]%nat /\
    NoDup (fst <$> invoked (trace s)).
Proof.
  eexists. split; [vm_compute; reflexivity|]. split; [reflexivity|].
  eapply (proj1 (wait_calls_at_most_once sample_call world0 squares
                   reversed_completion _ _)).
  Unshelve. vm_compute; reflexivity.
Defined.

(** X6. A tuple returned by [wait] is complete, in every environment: it
    has one slot per recorded call, every recorded call has been run
    exactly once, none returned an error, and slot [i] holds the value
    the call of index [i] returned. *)
Theorem wait_tuple_is_complete Call w g sched s el x :
  exec Call (heap w) (Group_Freeze g) sched (wait_init (Group_Freeze g)) = Some s ->
  pc s = PReturn (Some el, x) ->
  length el = length (calls g) /\
  fst <$> invoked (trace s) ≡ₚ seq 0 (length (calls g)) /\
  forall i r, (i, r) ∈ invoked (trace s) ->
    snd r = None /\ el !! i = Some (fst r).
Proof.
  intros Hs Hp. pose proof (sound_exec _ _ _ _ _ Hs) as Hsound.
  pose proof (tuple_flying _ _ _ _ Hsound Hp) as Hfly.
  destruct Hsound as ((_ & Hlen & _) & _ & (Hnd & Hlt & Hel) & Hc & [_ Hte] & _).
  unfold complete in Hc. rewrite Hp in Hc.
  destruct Hc as (-> & _ & Herr & Hall).
  unfold ledger in *. rewrite Hfly in *. simpl in *.
  unfold progress_index in *. rewrite Hp in *. simpl in *.
  split_and!.
  - done.
  - apply NoDup_Permutation; [done|apply NoDup_seq|].
    intros j. rewrite elem_of_seq. split; [intros Hj; apply Hlt in Hj|]; [lia|].
    intros [_ Hj]. by apply Hall.
  - intros i r Hi. pose proof (task_errors_nil _ _ _ (Hte Herr) Hi). auto.
Qed.

Lemma wait_tuple_is_complete_witness :
  exists s,
    exec sample_call (heap world0) (Group_Freeze squares) reversed_completion
         (wait_init (Group_Freeze squares)) = Some s /\
    pc s = PReturn (Some [Some (VInt 9); Some (VInt 16); Some (VInt 25)], None) /\
    fst <$> invoked (trace s) ≡ₚ seq 0 (length (calls squares)).
Proof.
  eexists. split; [vm_compute; reflexivity|]. split; [reflexivity|].
  eapply (proj1 (proj2 (wait_tuple_is_complete sample_call world0 squares
                          reversed_completion _ _ _ _ _))).
  Unshelve. all: try (vm_compute; reflexivity).
Defined.

(** X7. The pool and its channel, in every run of [wait]: with [0 < n]
    there are never more than [n] goroutines, all of them workers, the
    channel has capacity [n] and never holds more than [n] closures, the
    builtin at its select and the workers always have a channel, which
    is open while the loop runs (so no send can panic); with [n <= 0]
    there is no channel and no worker and the builtin never selects. *)
Theorem wait_pool_discipline Call w g sched s :
  exec Call (heap w) (Group_Freeze g) sched (wait_init (Group_Freeze g)) = Some s ->
  (0 < n g ->
   Z.of_nat (length (gos s)) <= n g /\
   Forall (fun gr => is_call gr = false) (gos s) /\
   (forall q, queue s = Some q ->
      cap q = n g /\ Z.of_nat (length (buf q)) <= n g /\
      (closed q = true -> pc s = PJoin \/ exists r, pc s = PReturn r)) /\
   (forall i c, pc s = PSelect i c ->
      exists q, queue s = Some q /\ closed q = false) /\
   (gos s <> [] -> exists q, queue s = Some q)) /\
  (n g <= 0 ->
   queue s = None /\ Forall (fun gr => is_worker gr = false) (gos s) /\
   forall i c, pc s <> PSelect i c).
Proof.
  intros Hs.
  destruct (sound_exec _ _ _ _ _ Hs)
    as ((_ & _ & k0 & m0 & d0 & _ & _ & _ & Hp & Hq) & (Hkind & Hcl & _) & _ & _
        & _ & Hb).
  unfold pc_shape, pool_shape, buf_bounded in *. simpl in *. split; intros Hn.
  - destruct (n g <=? 0) eqn:E; zbool; [lia|].
    destruct Hq as (Hw & _ & _ & Hlen & Hz & Hsome).
    assert (forall q, queue s = Some q -> cap q = n g) as Hcap.
    { intros q Hqs. destruct k0; [rewrite Hz in Hqs; done|].
      destruct Hsome as (q' & ? & ?); [lia|]. congruence. }
    split_and!.
    + lia.
    + done.
    + intros q Hqs. split_and!; [by apply Hcap| |].
      * rewrite <- (Hcap q Hqs). by apply Hb.
      * intros Hclosed. specialize (Hcl q Hqs).
        destruct (pc s); try congruence; eauto.
    + intros i c Hpc. rewrite Hpc in *. destruct Hp as (-> & _).
      destruct Hsome as (q & Hqs & _); [lia|]. exists q. split; [done|].
      by specialize (Hcl q Hqs).
    + intros Hne. destruct k0.
      * destruct (gos s); [done|]. simpl in *. lia.
      * destruct Hsome as (q & Hqs & _); [lia|]. by exists q.
  - destruct (n g <=? 0) eqn:E; zbool; [|lia].
    destruct Hq as (Hqs & _). destruct Hkind as [Hall Hsel].
    split_and!; [done|done|]. intros i c Hpc. by rewrite Hpc in Hsel.
Qed.

Lemma wait_pool_discipline_witness :
  exists s,
    exec sample_call (heap world0) (Group_Freeze (squares_group 2))
         [Main false; Main false; Main false; Main false]
         (wait_init (Group_Freeze (squares_group 2))) = Some s /\
    0 < n (squares_group 2) /\
    Z.of_nat (length (gos s)) <= n (squares_group 2).
Proof.
  eexists. split; [vm_compute; reflexivity|].
  assert (0 < n (squares_group 2)) as Hn by (simpl; lia).
  split; [exact Hn|].
  eapply (proj1 (proj1 (wait_pool_discipline sample_call world0
                          (squares_group 2)
                          [Main false; Main false; Main false; Main false]
                          _ _) Hn)).
  Unshelve. all: try (vm_compute; reflexivity).
Defined.

Lemma refused_step Call h g e c s s' :
  calls g <> [] ->
  (forall c0, Limiter_Wait (limiter g) c0 = Some e) ->
  refused e s -> step Call h g c s = Some s' -> refused e s'.
Proof.
  intros Hcalls Hlim (Hg & Hq & Hi & Hpc) H. unfold refused.
  destruct (calls g) as [|v l] eqn:Hc; [done|].
  destruct c as [b|k|d]; simpl in H.
  - unfold step_main in H. rewrite Hc, Hlim in H.
    destruct Hpc as [Hp|Hp]; rewrite Hp in H; simplify_eq/=.
    trace_simpl. split_and!; auto.
  - unfold step_go in H. by rewrite Hg in H.
  - unfold step_host in H. simplify_eq/=. split_and!; auto.
Qed.

(** X8. A limiter with a finite rate and a burst below 1, which is what
    [group(every = ...)] without a positive [burst] makes, lets nothing
    through: [wait] on such a group with at least one recorded call runs
    no function and starts no goroutine under any schedule, and returns
    the limiter's refusal at its first move. *)
Theorem wait_refused_without_burst Call w g sched s :
  frozen g = false -> calls g <> [] ->
  limit (limiter g) <> Inf -> burst (limiter g) < 1 ->
  exec Call (heap w) (Group_Freeze g) sched (wait_init (Group_Freeze g)) = Some s ->
  invoked (trace s) = [] /\ gos s = [] /\
  (forall r, pc s = PReturn r ->
     r = (None, Some (burst_error (burst (limiter g))))) /\
  forall b, (group_wait Call w g [Main b]).2
            = Some (None, Some (burst_error (burst (limiter g)))).
Proof.
  intros Hf Hcalls Hlim Hb Hs. set (e := burst_error (burst (limiter g))).
  assert (forall c0, Limiter_Wait (limiter (Group_Freeze g)) c0 = Some e) as Hw.
  { intros c0. unfold Limiter_Wait. simpl.
    rewrite bool_decide_eq_true_2 by lia.
    by rewrite bool_decide_eq_false_2 by done. }
  assert (refused e s) as (Hg & Hq & Hi & Hpc).
  { eapply (exec_invariant Call (heap w) (Group_Freeze g) (refused e)); eauto.
    - intros c s1 s2. by apply refused_step.
    - unfold refused; simpl. auto. }
  split_and!; [done|done| |].
  - intros r Hr. destruct Hpc; congruence.
  - intros b. rewrite group_wait_unfrozen by done. simpl.
    unfold step_main; simpl. destruct (calls g) as [|v l] eqn:Hc; [done|].
    simpl. by rewrite Hw.
Qed.

Lemma wait_refused_without_burst_witness :
  exists g,
    make_every "1s" = (Some g, None) /\
    (group_wait sample_call world0
       (go_all world0 g [[VCallable "square"; VInt 3]]).2 [Main false]).2
      = Some (None, Some (Errorf "rate: Wait(n=1) exceeds limiter's burst 0")).
Proof.
  eexists. split; [vm_compute; reflexivity|].
  match goal with
  | |- (group_wait _ _ ?g0 _).2 = _ =>
      refine (proj2 (proj2 (proj2
                (wait_refused_without_burst sample_call world0 g0 []
                   (wait_init (Group_Freeze g0)) eq_refl _ _ _ eq_refl)))
                false)
  end.
  all: vm_compute; try discriminate; try reflexivity.
Defined.

(** ** Make, go and wait together *)

Lemma Make_fresh thread args0 kwargs0 g :
  Make thread args0 kwargs0 = (Some g, None) ->
  frozen g = false /\ calls g = [] /\ eg_err (group g) = None /\
  ctx g = match local_context thread with Some c => c | None => Background end.
Proof.
  unfold Make. intros H. repeat (case_match; simplify_eq); done.
Qed.

Lemma results_recorded Call h g cs :
  calls g = map recorded cs ->
  results Call h g = map fst (script_results Call h cs).
Proof.
  intros Hc. unfold results, script_results. rewrite Hc, !map_map.
  apply map_ext. intros a. done.
Qed.

(** X9. A script end to end: a group made by [Make] on a thread with a
    live context, whose limiter lets calls through, then [go] with each
    of the argument tuples [cs] (a callable first), then [wait]. When
    the functions return without error, [wait] can run to its return,
    and under every schedule without cancellation what it returns is the
    tuple of the values of the calls in the order of the [go]s. *)
Theorem made_group_returns_results Call thread args0 kwargs0 g w cs :
  Make thread args0 kwargs0 = (Some g, None) ->
  live_thread thread -> admits g -> Forall well_formed_call cs ->
  let w' := (go_all w g cs).1 in
  let g' := (go_all w g cs).2 in
  Forall (fun r => snd r = None) (script_results Call (heap w') cs) ->
  (exists sched,
     no_host sched /\
     (group_wait Call w' g' sched).2
       = Some (Some (map fst (script_results Call (heap w') cs)), None)) /\
  (forall sched r,
     no_host sched -> (group_wait Call w' g' sched).2 = Some r ->
     r = (Some (map fst (script_results Call (heap w') cs)), None)).
Proof.
  intros Hmake Hlive Hadm Hwf w' g' Hok.
  destruct (Make_fresh _ _ _ _ Hmake) as (Hf & Hcalls & He & Hctx).
  assert (ctx g = None) as Hc.
  { rewrite Hctx. by destruct Hlive as [->| ->]. }
  destruct (go_all_calls w g cs Hf Hc Hwf)
    as (Hcalls' & Hf' & Hc' & Hl' & Hg' & _).
  fold g' in Hcalls', Hf', Hc', Hl', Hg'. rewrite Hcalls in Hcalls'.
  simpl in Hcalls'.
  set (gf := Group_Freeze g').
  assert (admits gf) as Hadm' by (unfold admits, gf; simpl; by rewrite Hl').
  assert (succeed Call (heap w') gf) as Hsuc.
  { intros v Hv. unfold gf in Hv. simpl in Hv. rewrite Hcalls' in Hv.
    apply list_elem_of_fmap in Hv as (a & -> & Ha).
    rewrite Forall_forall in Hok. apply Hok. unfold script_results.
    apply list_elem_of_fmap. by exists a. }
  assert (results Call (heap w') gf
          = map fst (script_results Call (heap w') cs)) as Hres
    by (by apply results_recorded).
  assert (forall sched s, no_host sched ->
            exec Call (heap w') gf sched (wait_init gf) = Some s ->
            good Call (heap w') gf s) as Hgood.
  { intros sched s Hn Hs.
    eapply (good_exec Call (heap w') gf); eauto. simpl. by rewrite Hg'. }
  split.
  - destruct (good_completes Call (heap w') gf (wait_init gf))
      as (sched & s & r & Hn & Hs & Hp); [done|done| |].
    { apply good_init; [done|]. simpl. by rewrite Hg'. }
    exists sched. split; [done|].
    apply group_wait_returns; [done|]. exists s. split; [done|].
    destruct (Hgood _ _ Hn Hs) as (_ & _ & _ & _ & _ & Hret).
    rewrite Hp in Hret. by rewrite Hp, Hret, Hres.
  - intros sched r Hn Hr.
    apply group_wait_returns in Hr as (s & Hs & Hp); [|done].
    destruct (Hgood _ _ Hn Hs) as (_ & _ & _ & _ & _ & Hret).
    rewrite Hp in Hret. by rewrite Hret, Hres.
Qed.

Lemma made_group_returns_results_witness :
  exists g,
    Make (mkThread None) [] [] = (Some g, None) /\
    (group_wait sample_call world0
       (go_all world0 g [[VCallable "square"; VInt 3];
                         [VCallable "square"; VInt 4]]).2
       [Main false; Main false; Go 1; Go 0; Main false; Main false]).2
      = Some (Some [Some (VInt 9); Some (VInt 16)], None).
Proof.
  eexists. split; [vm_compute; reflexivity|].
  assert (Forall well_formed_call
            [[VCallable "square"; VInt 3]; [VCallable "square"; VInt 4]]) as Hwf
    by (repeat constructor).
  match goal with
  | |- (group_wait _ _ (go_all _ ?g0 ?cs).2 ?sched).2 = _ =>
      destruct (made_group_returns_results sample_call (mkThread None) [] []
                  g0 world0 cs eq_refl (or_introl eq_refl) eq_refl Hwf) as [_ Hall];
      [repeat constructor|];
      rewrite (Hall sched (Some [Some (VInt 9); Some (VInt 16)], None))
  end.
  - reflexivity.
  - repeat constructor.
  - reflexivity.
Defined.

Lemma group_go_cancelled w g a kwargs0 e :
  ctx g = Some e -> (group_go w g a kwargs0).1.2 = g.
Proof.
  intros Hc. unfold group_go. destruct a as [|f rest]; [done|].
  destruct (negb (is_callable f)); [done|]. destruct (frozen g); [done|].
  rewrite freeze_kwargs_fresh, Hc. done.
Qed.

Lemma go_all_cancelled w g cs e :
  ctx g = Some e -> (go_all w g cs).2 = g.
Proof.
  intros Hc. induction cs as [|a cs IH] using rev_ind; [done|].
  rewrite go_all_snoc. destruct (go_all w g cs) as [w1 g1]. simpl in *. subst.
  pose proof (group_go_cancelled w1 g a [] e Hc) as Hg.
  destruct (group_go w1 g a []) as [[w2 g2] r]. done.
Qed.

(** X10. Calls submitted to a group whose context is already done are
    dropped without a trace: after any number of [go]s the group is as
    it was, and when nothing was recorded before, [wait] returns the
    empty tuple and no error, in two moves of the builtin. *)
Theorem go_after_cancel_then_wait Call w g cs e :
  frozen g = false -> ctx g = Some e -> calls g = [] ->
  eg_err (group g) = None ->
  (go_all w g cs).2 = g /\
  forall b1 b2,
    (group_wait Call (go_all w g cs).1 (go_all w g cs).2 [Main b1; Main b2]).2
      = Some (Some [], None).
Proof.
  intros Hf Hc Hcalls He. rewrite (go_all_cancelled w g cs e Hc).
  split; [done|]. intros b1 b2. rewrite group_wait_unfrozen by done.
  simpl. unfold step_main; simpl. rewrite Hcalls, He. simpl. done.
Qed.

Lemma go_after_cancel_then_wait_witness :
  frozen cancelled_group = false /\ ctx cancelled_group = Some Canceled /\
  (group_wait sample_call
     (go_all world0 cancelled_group [[VCallable "square"; VInt 3]]).1
     (go_all world0 cancelled_group [[VCallable "square"; VInt 3]]).2
     [Main false; Main false]).2
    = Some (Some [], None).
Proof.
  split; [reflexivity|]. split; [reflexivity|].
  exact (proj2 (go_after_cancel_then_wait sample_call world0 cancelled_group
                  [[VCallable "square"; VInt 3]] Canceled
                  eq_refl eq_refl eq_refl eq_refl) false false).
Defined.

(** ** Attributes *)

Lemma groupMethods_lookup name b :
  groupMethods !! name = Some b <->
  (name = "go" /\ b = NewBuiltin "group.go" fn_group_go) \/
  (name = "wait" /\ b = NewBuiltin "group.wait" fn_group_wait).
Proof.
  unfold groupMethods. rewrite !lookup_insert_Some, lookup_empty.
  split; [|intros [[-> ->]|[-> ->]]; [by left|right; split; [done|by left]]].
  intros [[<- <-]|[? [[<- <-]|[? ?]]]]; [by left|by right|done].
Qed.

(** X12. The attributes of a group: whatever the order in which the
    range over the method map gives the names, [AttrNames] is
    ["go", "wait"]; [Attr] finds exactly the names [AttrNames] lists, and
    what it finds is the builtin of that method bound to the group; for
    any other name it returns nil and no error. *)
Theorem Group_attributes g order :
  range_order order ->
  Group_AttrNames g order = ["go"; "wait"] /\
  (forall name,
     name ∈ Group_AttrNames g order <->
     exists b, Group_Attr g name = (Some b, None)) /\
  (forall name b,
     Group_Attr g name = (Some b, None) ->
     b_recv b = Some g /\
     ((name = "go" /\ b_name b = "group.go" /\ b_fn b = fn_group_go) \/
      (name = "wait" /\ b_name b = "group.wait" /\ b_fn b = fn_group_wait))) /\
  (forall name,
     name <> "go" -> name <> "wait" -> Group_Attr g name = (None, None)).
Proof.
  intros Hord.
  assert (Group_AttrNames g order = ["go"; "wait"]) as Hnames.
  { unfold range_order in Hord.
    assert ((map_to_list groupMethods).*1 = ["go"; "wait"]
            \/ (map_to_list groupMethods).*1 = ["wait"; "go"]) as [E|E]
      by (vm_compute; auto).
    all: rewrite E in Hord; symmetry in Hord;
      apply Permutation_length_2_inv in Hord as [->| ->]; by vm_compute. }
  assert (forall name b, Group_Attr g name = (Some b, None) ->
            exists b0, groupMethods !! name = Some b0 /\ b = BindReceiver b0 g)
    as Hattr.
  { intros name b. unfold Group_Attr.
    destruct (groupMethods !! name) as [b0|]; [|done].
    intros [= <-]. by exists b0. }
  split_and!.
  - done.
  - intros name. rewrite Hnames. split.
    + rewrite !elem_of_cons, elem_of_nil. unfold Group_Attr.
      intros [->|[->|[]]]; by eexists.
    + intros [b Hb]. apply Hattr in Hb as (b0 & Hb0 & _).
      apply groupMethods_lookup in Hb0 as [[-> _]|[-> _]]; set_solver.
  - intros name b Hb. apply Hattr in Hb as (b0 & Hb0 & ->).
    apply groupMethods_lookup in Hb0 as [[-> ->]|[-> ->]]; simpl; auto 10.
  - intros name Hgo Hwait. unfold Group_Attr.
    destruct (groupMethods !! name) as [b0|] eqn:E; [|done].
    apply groupMethods_lookup in E as [[-> _]|[-> _]]; done.
Qed.

Lemma Group_attributes_witness :
  range_order ["wait"; "go"] /\
  Group_AttrNames fresh_group ["wait"; "go"] = ["go"; "wait"].
Proof.
  assert (range_order ["wait"; "go"]) as Hord.
  { unfold range_order.
    assert ((map_to_list groupMethods).*1 = ["go"; "wait"]
            \/ (map_to_list groupMethods).*1 = ["wait"; "go"]) as [-> | ->]
      by (vm_compute; auto); [apply perm_swap|reflexivity]. }
  split; [exact Hord|].
  exact (proj1 (Group_attributes fresh_group ["wait"; "go"] Hord)).
Defined.

(** ** Witnesses for the properties of go and of the earlier wait *)

Lemma heap2_closed : heap_closed heap2.
Proof.
  intros l o e l' Hl Hfr. unfold heap2 in Hl.
  apply lookup_insert_Some in Hl as [[<- <-]|[_ Hl]]; [done|].
  apply lookup_singleton_Some in Hl as [<- <-]. done.
Qed.

Lemma go_deep_freezes_positional_witness :
  frozen fresh_group = false /\ heap_closed (heap world2) /\
  list_append 2 (VInt 7)
    (heap (group_go world2 fresh_group [VCallable "len"; VList 1] []).1.1)
  = (heap (group_go world2 fresh_group [VCallable "len"; VList 1] []).1.1,
     Some (EvalError "append: cannot append to frozen list")).
Proof.
  split; [reflexivity|]. split; [exact heap2_closed|].
  destruct (go_deep_freezes_positional world2 fresh_group (VCallable "len")
              [VList 1] [] eq_refl eq_refl heap2_closed) as (_ & _ & Hall).
  destruct (Hall (VList 1)) as [_ Happ].
  { apply elem_of_cons. right. apply elem_of_cons. by left. }
  apply Happ.
  - eapply (reaches_elem _ (VList 1) 1%positive _ (VList 2) 2%positive).
    + constructor.
    + vm_compute; reflexivity.
    + apply elem_of_cons. by left.
    + constructor. constructor.
  - eexists. vm_compute; reflexivity.
Defined.

Lemma Eager_wait_by_position_witness :
  Eager.frozen eager_done = false /\
  map Eager.res_i (Eager.results eager_done) ≡ₚ seq 0 2 /\
  (Eager.group_wait world0 eager_done None).2
    = (Some [VInt 9; VInt 16], None).
Proof.
  split; [reflexivity|].
  assert (map Eager.res_i (Eager.results eager_done) ≡ₚ seq 0 2) as Hperm
    by apply perm_swap.
  split; [exact Hperm|].
  apply (Eager_wait_by_position world0 eager_done 2
           (fun p => match p with O => VInt 9 | _ => VInt 16 end) eq_refl Hperm).
  intros r Hr. apply elem_of_cons in Hr as [->|Hr]; [reflexivity|].
  apply elem_of_cons in Hr as [->|Hr]; [reflexivity|].
  by apply elem_of_nil in Hr.
Defined.

(** ** The earlier revision's go *)

Lemma reaches_keeps h h' v l : keeps h h' -> reaches h' v l -> reaches h v l.
Proof.
  intros [Hk Hn]. induction 1 as [v l Hd|v l o' e l' Hd Hl He _ IH].
  - by constructor.
  - destruct (h !! l) as [o|] eqn:E; [|by rewrite (Hn l E) in Hl].
    destruct (Hk l o E) as (o2 & Hl2 & Hel & _). simplify_eq.
    eapply reaches_elem; eauto. by rewrite <- Hel.
Qed.

Lemma deep_frozen_keeps h h' v :
  keeps h h' -> deep_frozen h v -> deep_frozen h' v.
Proof.
  intros K D l Hr. eapply frozen_at_keeps; [done|].
  apply D. by eapply reaches_keeps.
Qed.

Lemma kwargs_Freeze_deep kws : forall h,
  heap_closed h ->
  let h' := foldl (fun h0 kwarg => Tuple_Freeze kwarg h0) h kws in
  keeps h h' /\ heap_closed h' /\
  forall kw v, kw ∈ kws -> v ∈ kw -> deep_frozen h' v.
Proof.
  induction kws as [|kw kws IH]; intros h Hc; simpl.
  - split_and!; [apply keeps_refl|done|]. intros kw v Hkw. by apply elem_of_nil in Hkw.
  - destruct (Tuple_Freeze_deep kw h Hc) as (K1 & Hc1 & D1).
    destruct (IH _ Hc1) as (K2 & Hc2 & D2).
    split_and!; [by eapply keeps_trans|done|].
    intros kw' v Hkw Hv. apply elem_of_cons in Hkw as [->|Hkw]; [|by eapply D2].
    eapply deep_frozen_keeps; [done|]. by apply D1.
Qed.

(** X14. [go] of the earlier revision deep-freezes the function, the
    positional arguments and both parts of every keyword argument,
    whether the context is done or not, and takes nothing from the
    heap: [append] fails afterwards on every list they reach. *)
Theorem Eager_go_deep_freezes w g f args0 kwargs0 b :
  Eager.frozen g = false -> is_callable f = true -> heap_closed (heap w) ->
  let w' := (Eager.group_go w g (f :: args0) kwargs0 b).1.1 in
  (Eager.group_go w g (f :: args0) kwargs0 b).2 = (Some VNone, None) /\
  keeps (heap w) (heap w') /\ heap_closed (heap w') /\
  forall v, v ∈ f :: args0 \/ (exists kw, kw ∈ kwargs0 /\ v ∈ kw) ->
    deep_frozen (heap w') v /\
    forall l x, reaches (heap w') v l -> is_Some (heap w' !! l) ->
      list_append l x (heap w')
        = (heap w', Some (EvalError "append: cannot append to frozen list")).
Proof.
  intros Hf Hc Hcl.
  destruct (Tuple_Freeze_deep (f :: args0) (heap w) Hcl) as (K1 & Hc1 & D1).
  destruct (kwargs_Freeze_deep kwargs0 _ Hc1) as (K2 & Hc2 & D2).
  set (h2 := foldl (fun h0 kwarg => Tuple_Freeze kwarg h0)
               (Tuple_Freeze (f :: args0) (heap w)) kwargs0) in *.
  assert (heap (Eager.group_go w g (f :: args0) kwargs0 b).1.1 = h2 /\
          (Eager.group_go w g (f :: args0) kwargs0 b).2 = (Some VNone, None))
    as [Hh Hr].
  { unfold Eager.group_go. rewrite Hc, Hf. simpl.
    repeat (case_match; simplify_eq/=); done. }
  cbv zeta. rewrite !Hh. split_and!; [done|by eapply keeps_trans|done|].
  assert (forall v, v ∈ f :: args0 \/ (exists kw, kw ∈ kwargs0 /\ v ∈ kw) ->
            deep_frozen h2 v) as D.
  { intros v [Hv|(kw & Hkw & Hv)]; [|by eapply D2].
    eapply deep_frozen_keeps; [done|]. by apply D1. }
  intros v Hv. split; [by apply D|].
  intros l x Hl [o Ho]. eapply list_append_frozen; [done|].
  by eapply (D v Hv l Hl).
Qed.

Lemma Eager_go_deep_freezes_witness :
  heap_closed (heap world1) /\
  list_append 1 (VInt 2) (heap eager_go_named.1.1)
    = (heap eager_go_named.1.1,
       Some (EvalError "append: cannot append to frozen list")).
Proof.
  assert (heap_closed (heap world1)) as Hcl.
  { intros l o e l' Hl Hfr. simpl in Hl. unfold heap1 in Hl.
    apply lookup_singleton_Some in Hl as [<- <-]. done. }
  split; [exact Hcl|].
  destruct (Eager_go_deep_freezes world1 (Eager.NewGroup Background 0 Inf 0)
              (VCallable "len") [] [[VString "x"; VList 1]] false
              eq_refl eq_refl Hcl) as (_ & _ & _ & Hall).
  destruct (Hall (VList 1)) as [_ Happ].
  { right. exists [VString "x"; VList 1]. split.
    - apply elem_of_cons. by left.
    - apply elem_of_cons. right. apply elem_of_cons. by left. }
  apply Happ.
  - constructor. constructor.
  - eexists. vm_compute; reflexivity.
Defined.




(** ** wait always returns *)

(** X16. [wait] never blocks for good: after any run, with failures of
    the functions, refusals of the limiter and cancellations by the host
    as they come, either the builtin has returned or one of its threads
    can move, and the run can be continued without the host to the
    return of the builtin. *)
Theorem wait_always_returns Call w g sched s :
  frozen g = false -> eg_err (group g) = None ->
  exec Call (heap w) (Group_Freeze g) sched (wait_init (Group_Freeze g)) = Some s ->
  ((forall r, pc s <> PReturn r) ->
   exists c, is_host c = false /\
             is_Some (step Call (heap w) (Group_Freeze g) c s)) /\
  exists rest r,
    no_host rest /\ (group_wait Call w g (sched ++ rest)).2 = Some r.
Proof.
  intros Hf He Hs.
  pose proof (sound_exec _ _ _ _ _ Hs) as Hsound.
  pose proof (errs_ok_exec _ _ _ _ _ He Hs) as Herrs.
  split; [by apply sound_progress|].
  destruct (sound_completes Call (heap w) (Group_Freeze g) s Hsound Herrs)
    as (rest & s' & r & Hn & Hex & Hr).
  exists rest, r. split; [done|].
  apply group_wait_returns; [done|]. exists s'. split; [|done].
  by rewrite exec_app, Hs.
Qed.

Lemma wait_always_returns_witness :
  exists s,
    exec sample_call (heap world0) (Group_Freeze failing_group) [Main false; Go 0]
         (wait_init (Group_Freeze failing_group)) = Some s /\
    exists rest r,
      no_host rest /\
      (group_wait sample_call world0 failing_group
         ([Main false; Go 0] ++ rest)).2 = Some r.
Proof.
  eexists. split; [vm_compute; reflexivity|].
  eapply (proj2 (wait_always_returns sample_call world0 failing_group
                   [Main false; Go 0] _ eq_refl eq_refl _)).
  Unshelve. all: try (vm_compute; reflexivity).
Defined.
